(** * simplepyged: records.py

    A shallow embedding of [simplepyged/records.py] (GEDCOM lines, records,
    individuals and families) together with the kinship queries built on
    them, and the properties of those queries.

    Conventions of the embedding.

    - A Python object is designated by its address ([addr]); [==], [in] and
      [set] on records compare addresses, as the classes define neither
      [__eq__] nor [__hash__].
    - The objects built by the parser live in a store ([Gedcom]) holding the
      individuals and the families after their [_init] has run.  A reference
      read from a FAMC/FAMS line is looked up among the families, one read
      from a HUSB/WIFE/CHIL line among the individuals, which is what the
      GEDCOM grammar prescribes for these tags.
    - A call either returns, raises, or exhausts its fuel ([outcome]).  Fuel
      bounds the depth of the recursive methods and the number of rounds of
      the [while] loop; running out of it stands for Python exceeding its
      recursion limit or looping forever.
    - The [print] statements of [path_to_relative] write to standard output
      only and are left out. *)

From Stdlib Require Import Ascii.
From stdpp Require Import gmap strings list sorting pretty.

Set Default Proof Using "Type".

(** ** Outcomes of a call *)

Inductive exn :=
  | MultipleReturnValues
  | KeyError
  | IndexError
  | AttributeError
  | TypeError
  | ValueError.

Inductive outcome (A : Type) :=
  | Ret (a : A)
  | Raise (e : exn)
  | OutOfFuel.
Arguments Ret {A} a.
Arguments Raise {A} e.
Arguments OutOfFuel {A}.

#[global] Instance exn_eq_dec : EqDecision exn.
Proof. solve_decision. Defined.

#[global] Instance outcome_ret : MRet outcome := @Ret.
#[global] Instance outcome_bind : MBind outcome := λ A B f m,
  match m with
  | Ret a => f a
  | Raise e => Raise e
  | OutOfFuel => OutOfFuel
  end.

(** [try: body except e: handler] *)
Definition try_except {A} (body : outcome A) (e : exn) (handler : outcome A)
  : outcome A :=
  match body with
  | Raise e' => if decide (e' = e) then handler else Raise e'
  | r => r
  end.

(** [for x in l: s = body(s, x)] *)
Fixpoint for_each {A S} (l : list A) (s : S) (body : S → A → outcome S)
  : outcome S :=
  match l with
  | [] => Ret s
  | x :: l' => s' ← body s x; for_each l' s' body
  end.

(** [d[k]] on a dictionary *)
Definition getitem {R} (d : gmap string R) (k : string) : outcome R :=
  match d !! k with
  | Some r => Ret r
  | None => Raise KeyError
  end.

(** [l[i]] on a list *)
Definition index {A} (l : list A) (i : nat) : outcome A :=
  match l !! i with
  | Some x => Ret x
  | None => Raise IndexError
  end.

(** ** class Line *)

#[warnings="-register-all"]
Inductive Line := mkLine {
  level : nat;
  xref : string;
  tag : string;
  value : string;
  children_lines : list Line
}.

Definition children_tags (self : Line) (tag' : string) : list Line :=
  foldl (λ lines c, if decide (tag c = tag') then lines ++ [c] else lines)
        [] (children_lines self).

Definition children_tag_records {R} (_dict : gmap string R)
    (self : Line) (tag' : string) : outcome (list R) :=
  for_each (children_tags self tag') []
    (λ lines e,
       try_except (r ← getitem _dict (value e); Ret (lines ++ [r]))
                  KeyError (Ret lines)).

(** ** class Record *)

(** Modelled from the spec: the class [Event] comes from the module [events],
    which is not part of this file.  An event is built from the line that
    declares it; nothing below reads more of it than that. *)
Record Event := mkEvent { event_line : Line }.

Definition _parse_generic_event_list (self : Line) (tag' : string)
  : list Event :=
  foldl (λ retval event_line, retval ++ [mkEvent event_line])
        [] (children_tags self tag').

(** ** Individuals and families after [_init] *)

Abbreviation addr := nat (only parsing).

Record Individual := mkIndividual {
  individual_line : Line;
  _parent_families : list addr;
  _families : list addr;
  birth_events : list Event;
  death_events : list Event;
  individual_other_events : list Event
}.

Record Family := mkFamily {
  family_line : Line;
  _husband : option addr;
  _wife : option addr;
  _children : list addr;
  marriage_events : list Event;
  family_other_events : list Event
}.

Definition individual_event_types : list string :=
  ["ADOP"; "BAPM"; "BARM"; "BASM"; "BLES"; "BURI";
   "CENS"; "CHR"; "CHRA"; "CONF"; "CREM"; "EMIG";
   "FCOM"; "GRAD"; "IMMI"; "NATU"; "ORDN"; "RETI";
   "PROB"; "WILL"; "EVEN"].

Definition family_event_types : list string :=
  ["ANUL"; "CENS"; "DIV"; "DIVF"; "ENGA"; "MARB";
   "MARC"; "MARL"; "MARS"; "EVEN"].

Definition get_families (_dict : gmap string addr) (self : Line)
  : outcome (list addr) :=
  children_tag_records _dict self "FAMS".

Definition get_parent_families (_dict : gmap string addr) (self : Line)
  : outcome (list addr) :=
  children_tag_records _dict self "FAMC".

(** [Individual._init] *)
Definition Individual_init (_dict : gmap string addr) (self : Line)
  : outcome Individual :=
  pf ← get_parent_families _dict self;
  fs ← get_families _dict self;
  Ret {| individual_line := self;
         _parent_families := pf;
         _families := fs;
         birth_events := _parse_generic_event_list self "BIRT";
         death_events := _parse_generic_event_list self "DEAT";
         individual_other_events :=
           foldl (λ other event_type,
                    other ++ _parse_generic_event_list self event_type)
                 [] individual_event_types |}.

(** [Family._init] *)
Definition Family_init (_dict : gmap string addr) (self : Line)
  : outcome Family :=
  h ← try_except (l ← children_tag_records _dict self "HUSB";
                  x ← index l 0; Ret (Some x))
                 IndexError (Ret None);
  w ← try_except (l ← children_tag_records _dict self "WIFE";
                  x ← index l 0; Ret (Some x))
                 IndexError (Ret None);
  c ← try_except (children_tag_records _dict self "CHIL")
                 IndexError (Ret []);
  Ret {| family_line := self;
         _husband := h;
         _wife := w;
         _children := c;
         marriage_events := _parse_generic_event_list self "MARR";
         family_other_events :=
           foldl (λ other event_type,
                    other ++ _parse_generic_event_list self event_type)
                 [] family_event_types |}.

(** The store: the object found at each address. *)
Record Gedcom := mkGedcom {
  individuals : addr → Individual;
  families : addr → Family
}.

(** ** Python built-ins used by the queries *)

(** [sorted(l, key=key)]: a stable sort, equal keys keep their order. *)
Fixpoint insert_by {A} (key : A → nat) (x : A) (l : list A) : list A :=
  match l with
  | [] => [x]
  | y :: l' =>
      if decide (key x ≤ key y) then x :: y :: l' else y :: insert_by key x l'
  end.

Definition sorted {A} (key : A → nat) (l : list A) : list A :=
  foldr (insert_by key) [] l.

(** [min(l, key=key)]: the first of the least elements; [ValueError] on an
    empty sequence. *)
Definition py_min {A} (key : A → nat) (l : list A) : outcome A :=
  match l with
  | [] => Raise ValueError
  | x :: l' => Ret (foldl (λ m y, if decide (key y < key m) then y else m) x l')
  end.

(** [list(set(a) & set(b))]: the members of both lists, each once.  Python
    lists a set of records in an order that depends on the addresses of the
    records and on the way the set was built, so the same members may come
    out in different orders from one call to another.  [elements] stands for
    one such listing; the properties below use of it only that it holds each
    common member once ([elem_of_set_intersection], [NoDup_set_intersection])
    and state a list obtained this way up to its order. *)
Definition set_intersection (a b : list addr) : list addr :=
  elements ((list_to_set a : gset addr) ∩ list_to_set b).

(** A [for] loop whose body may [return]: the first [Some v] produced by the
    body is returned, otherwise the code after the loop runs. *)
Fixpoint for_return {A B} (l : list A) (body : A → outcome (option B))
    (after : outcome B) : outcome B :=
  match l with
  | [] => after
  | x :: l' =>
      r ← body x;
      match r with
      | Some v => Ret v
      | None => for_return l' body after
      end
  end.

(** [for step in old_path: path.append(step); if step == x: break] *)
Fixpoint take_until (x : addr) (old_path : list addr) : list addr :=
  match old_path with
  | [] => []
  | step :: rest =>
      step :: (if decide (step = x) then [] else take_until x rest)
  end.

(** ** class Family *)

Definition Family_husband (g : Gedcom) (self : addr) : option addr :=
  _husband (families g self).

Definition Family_wife (g : Gedcom) (self : addr) : option addr :=
  _wife (families g self).

Definition Family_parents (g : Gedcom) (self : addr) : list addr :=
  let parents := [] in
  let parents :=
    match _husband (families g self) with
    | Some h => parents ++ [h]
    | None => parents
    end in
  let parents :=
    match _wife (families g self) with
    | Some w => parents ++ [w]
    | None => parents
    end in
  parents.

Definition Family_children (g : Gedcom) (self : addr) : list addr :=
  _children (families g self).

Definition Family_married (g : Gedcom) (self : addr) : bool :=
  bool_decide (0 < length (children_tags (family_line (families g self)) "MARR")).

Definition Family_marriage (g : Gedcom) (self : addr) : outcome Event :=
  index (marriage_events (families g self)) 0.

Definition Individual_parent_families (g : Gedcom) (self : addr) : list addr :=
  _parent_families (individuals g self).

Definition Family_parent_families (g : Gedcom) (self : addr) : list addr :=
  let parent_families := [] in
  let parent_families :=
    match Family_husband g self with
    | Some h =>
        let husband_families := Individual_parent_families g h in
        match husband_families with
        | [] => parent_families
        | _ => parent_families ++ husband_families
        end
    | None => parent_families
    end in
  let parent_families :=
    match Family_wife g self with
    | Some w =>
        let wife_families := Individual_parent_families g w in
        match wife_families with
        | [] => parent_families
        | _ => parent_families ++ wife_families
        end
    | None => parent_families
    end in
  parent_families.

Fixpoint Family__ancestor_families_with_distance (fuel : nat) (g : Gedcom)
    (self : addr) (distance : nat) : outcome (list (addr * nat)) :=
  match fuel with
  | 0 => OutOfFuel
  | S fuel' =>
      let parent_families := Family_parent_families g self in
      let anc_fam :=
        foldl (λ anc_fam fam, anc_fam ++ [(fam, distance)]) [] parent_families in
      for_each parent_families anc_fam
        (λ anc_fam fam,
           l ← Family__ancestor_families_with_distance fuel' g fam (distance + 1);
           Ret (anc_fam ++ l))
  end.

Definition Family_ancestor_families_with_distance (fuel : nat) (g : Gedcom)
    (self : addr) : outcome (list (addr * nat)) :=
  l ← Family__ancestor_families_with_distance fuel g self 0;
  Ret (sorted snd l).

(** ** class Individual *)

Definition Individual_parent_family (g : Gedcom) (self : addr)
  : outcome (option addr) :=
  if decide (length (Individual_parent_families g self) = 0) then Ret None
  else if decide (length (Individual_parent_families g self) = 1) then
    f ← index (Individual_parent_families g self) 0; Ret (Some f)
  else if decide (1 < length (Individual_parent_families g self)) then
    Raise MultipleReturnValues
  else Ret None.

Definition Individual_families (g : Gedcom) (self : addr) : list addr :=
  _families (individuals g self).

Definition Individual_family (g : Gedcom) (self : addr)
  : outcome (option addr) :=
  if decide (length (Individual_families g self) = 0) then Ret None
  else if decide (length (Individual_families g self) = 1) then
    f ← index (Individual_families g self) 0; Ret (Some f)
  else if decide (1 < length (Individual_families g self)) then
    Raise MultipleReturnValues
  else Ret None.

(** What [father] and [mother] return: an individual, or a list of them. *)
Inductive one_or_list :=
  | One (a : addr)
  | Many (l : list addr).

Definition Individual_father (g : Gedcom) (self : addr) : outcome one_or_list :=
  let fathers :=
    foldl (λ fathers family,
             match Family_husband g family with
             | Some h => fathers ++ [h]
             | None => fathers
             end) [] (Individual_parent_families g self) in
  if decide (length fathers = 1) then
    f ← index fathers 0; Ret (One f)
  else Ret (Many fathers).

Definition Individual_mother (g : Gedcom) (self : addr) : outcome one_or_list :=
  let mothers :=
    foldl (λ mothers family,
             match Family_wife g family with
             | Some w => mothers ++ [w]
             | None => mothers
             end) [] (Individual_parent_families g self) in
  if decide (length mothers = 1) then
    m ← index mothers 0; Ret (One m)
  else Ret (Many mothers).

Definition Individual_children (g : Gedcom) (self : addr) : list addr :=
  foldl (λ retval f,
           foldl (λ retval c, retval ++ [c]) retval (Family_children g f))
        [] (Individual_families g self).

Definition Individual_siblings (g : Gedcom) (self : addr) : list addr :=
  foldl (λ siblings family,
           foldl (λ siblings child,
                    if decide (child ≠ self) then siblings ++ [child]
                    else siblings)
                 siblings (Family_children g family))
        [] (Individual_parent_families g self).

Definition Individual_birth (g : Gedcom) (self : addr) : outcome (option Event) :=
  if decide (length (birth_events (individuals g self)) = 0) then Ret None
  else e ← index (birth_events (individuals g self)) 0; Ret (Some e).

Definition Individual_death (g : Gedcom) (self : addr) : outcome (option Event) :=
  if decide (length (death_events (individuals g self)) = 0) then Ret None
  else e ← index (death_events (individuals g self)) 0; Ret (Some e).

Definition Individual_alive (g : Gedcom) (self : addr) : outcome bool :=
  d ← Individual_death g self;
  Ret (match d with None => true | Some _ => false end).

Definition Individual_parents (g : Gedcom) (self : addr) : list addr :=
  let parent_pairs :=
    map (λ x, Family_parents g x) (Individual_parent_families g self) in
  parent_pair ← parent_pairs; parent ← parent_pair; [parent].

Definition Individual_mutual_parent_families (g : Gedcom)
    (self candidate : addr) : list addr :=
  set_intersection (Individual_parent_families g self)
                   (Individual_parent_families g candidate).

Definition Individual_is_parent (g : Gedcom) (self candidate : addr) : bool :=
  if decide (candidate ∈ Individual_parents g self) then true else false.

Definition Individual_is_sibling (g : Gedcom) (self candidate : addr) : bool :=
  match Individual_mutual_parent_families g self candidate with
  | [] => false
  | _ => true
  end.

Fixpoint Individual_is_ancestor (fuel : nat) (g : Gedcom)
    (self candidate : addr) : outcome bool :=
  match fuel with
  | 0 => OutOfFuel
  | S fuel' =>
      if Individual_is_parent g self candidate then Ret true
      else
        for_return (Individual_parents g self)
          (λ parent,
             b ← Individual_is_ancestor fuel' g parent candidate;
             Ret (if (b : bool) then Some true else None))
          (Ret false)
  end.

(** The [while] loop of [distance_to_ancestor]; [fuel] bounds its rounds. *)
Fixpoint distance_to_ancestor_loop (fuel : nat) (g : Gedcom) (ancestor : addr)
    (ancestor_list : list addr) (distance : nat) : outcome (option nat) :=
  match ancestor_list with
  | [] => Ret None
  | _ =>
      match fuel with
      | 0 => OutOfFuel
      | S fuel' =>
          if decide (ancestor ∈ ancestor_list) then Ret (Some distance)
          else
            let new_list :=
              foldl (λ new_list a, new_list ++ Individual_parents g a)
                    [] ancestor_list in
            distance_to_ancestor_loop fuel' g ancestor new_list (distance + 1)
      end
  end.

Definition Individual_distance_to_ancestor (fuel : nat) (g : Gedcom)
    (self ancestor : addr) : outcome (option nat) :=
  distance_to_ancestor_loop fuel g ancestor [self] 0.

Fixpoint Individual_down_path (fuel : nat) (g : Gedcom)
    (ancestor descendant : addr) (distance : option nat)
  : outcome (option (list addr)) :=
  match fuel with
  | 0 => OutOfFuel
  | S fuel' =>
      if (match distance with Some d => bool_decide (d ≤ 0) | None => false end)
      then Ret None
      else if decide (ancestor = descendant) then Ret (Some [ancestor])
      else if decide (Individual_children g ancestor = []) then Ret None
      else if decide (descendant ∈ Individual_children g ancestor)
      then Ret (Some [ancestor; descendant])
      else
        for_return (Individual_children g ancestor)
          (λ c,
             path ← Individual_down_path fuel' g c descendant
                      (match distance with
                       | None => None
                       | Some d => Some (d - 1)
                       end);
             Ret (match path with
                  | Some path => Some (Some (ancestor :: path))
                  | None => None
                  end))
          (Ret None)
  end.

Definition Individual_ancestor_families_with_distance (fuel : nat)
    (g : Gedcom) (self : addr) : outcome (list (addr * nat)) :=
  ancestor_families ←
    for_each (Individual_parent_families g self) []
      (λ ancestor_families fam,
         l ← Family__ancestor_families_with_distance fuel g fam 1;
         Ret ((ancestor_families ++ [(fam, 0)]) ++ l));
  Ret (sorted snd ancestor_families).

Definition Individual_common_ancestor_families (fuel : nat) (g : Gedcom)
    (self : addr) (relative : option addr) : outcome (list addr) :=
  match relative with
  | None => Ret []
  | Some relative =>
      let mutual := Individual_mutual_parent_families g self relative in
      if decide (mutual ≠ []) then Ret mutual
      else
        my_ancestors ← Individual_ancestor_families_with_distance fuel g self;
        if decide (my_ancestors = []) then Ret []
        else
          his_ancestors ←
            Individual_ancestor_families_with_distance fuel g relative;
          if decide (his_ancestors = []) then Ret []
          else
            let my_anc_without_dist := map fst my_ancestors in
            let his_anc_without_dist := map fst his_ancestors in
            let common_without_dist :=
              set_intersection my_anc_without_dist his_anc_without_dist in
            if decide (common_without_dist = []) then Ret []
            else
              let common_with_my_dist :=
                filter (λ fd, fd.1 ∈ common_without_dist) my_ancestors in
              m ← py_min snd common_with_my_dist;
              let min_dist := m.2 in
              let common_min_with_dist :=
                filter (λ fd, fd.2 = min_dist) common_with_my_dist in
              Ret (map fst common_min_with_dist)
  end.

Definition Individual_common_ancestors (fuel : nat) (g : Gedcom)
    (self : addr) (relative : option addr) : outcome (list addr) :=
  match relative with
  | None => Ret []
  | Some _ =>
      fams ← Individual_common_ancestor_families fuel g self relative;
      Ret (foldl (λ common_ancestors family,
                    foldl (λ common_ancestors ancestor,
                             if decide (ancestor ∈ common_ancestors)
                             then common_ancestors
                             else common_ancestors ++ [ancestor])
                          common_ancestors (Family_parents g family))
                 [] fams)
  end.

Definition Individual_common_ancestor (fuel : nat) (g : Gedcom)
    (self : addr) (relative : option addr) : outcome (option addr) :=
  common_ancestors ← Individual_common_ancestors fuel g self relative;
  match relative with
  | None => Ret None
  | Some _ =>
      if decide (length common_ancestors = 0) then Ret None
      else if decide (length common_ancestors = 1) then
        a ← index common_ancestors 0; Ret (Some a)
      else if decide (1 < length common_ancestors) then
        Raise MultipleReturnValues
      else Ret None
  end.

Definition Individual_is_relative (fuel : nat) (g : Gedcom)
    (self candidate : addr) : outcome bool :=
  a ← Individual_is_ancestor fuel g self candidate;
  if (a : bool) then Ret true
  else
    b ← Individual_is_ancestor fuel g candidate self;
    if (b : bool) then Ret true
    else
      c ← Individual_common_ancestor_families fuel g self (Some candidate);
      Ret (match c with [] => false | _ => true end).

(** *** path_to_relative *)

Inductive direction := start | parent | child | sibling.

(** An entry of [full_path] is a tuple [(step, direction)], or, where the
    code appends [[common_ancestor, 'child']], a two-element list. *)
Inductive path_entry :=
  | PyTuple (step : addr) (d : direction)
  | PyList (step : addr) (d : direction).

(** [entry[0]] *)
Definition entry_step (e : path_entry) : addr :=
  match e with
  | PyTuple step _ => step
  | PyList step _ => step
  end.

(** [entry[1] = d]: a tuple does not support item assignment. *)
Definition entry_set_direction (e : path_entry) (d : direction)
  : outcome path_entry :=
  match e with
  | PyTuple _ _ => Raise TypeError
  | PyList step _ => Ret (PyList step d)
  end.

(** [l[-1]] *)
Definition index_last {A} (l : list A) : outcome A :=
  match last l with
  | Some x => Ret x
  | None => Raise IndexError
  end.

(** [l[-1][1] = d] *)
Definition set_last_direction (full_path : list path_entry) (d : direction)
  : outcome (list path_entry) :=
  e ← index_last full_path;
  e' ← entry_set_direction e d;
  Ret (<[length full_path - 1 := e']> full_path).

(** [path.reverse()], where [path] may be [None]. *)
Definition reverse_method (path : option (list addr)) : outcome (list addr) :=
  match path with
  | Some path => Ret (reverse path)
  | None => Raise AttributeError
  end.

(** The body of [if compact:] in [path_to_relative]: the [try] statement
    that relabels the last entry of [full_path] or appends the common
    ancestor. *)
Definition compact_path (g : Gedcom) (full_path : list path_entry)
    (his_path : list addr) (common_ancestor : addr)
  : outcome (list path_entry) :=
  try_except
    (e ← index_last full_path;
     c ← index his_path 1;
     if Individual_is_sibling g (entry_step e) c
     then set_last_direction full_path sibling
     else Ret (full_path ++ [PyList common_ancestor child]))
    IndexError
    (Ret (full_path ++ [PyList common_ancestor child])).

(** [entry[1]] *)
Definition entry_direction (e : path_entry) : direction :=
  match e with
  | PyTuple _ d => d
  | PyList _ d => d
  end.

Definition Individual_path_to_relative (fuel : nat) (g : Gedcom)
    (self relative : addr) (compact : bool)
  : outcome (option (list path_entry)) :=
  if decide (relative = self) then Ret (Some [PyTuple self start])
  else if decide (relative ∈ Individual_parents g self) then
    Ret (Some [PyTuple self start; PyTuple relative parent])
  else if decide (relative ∈ Individual_children g self) then
    Ret (Some [PyTuple self start; PyTuple relative child])
  else
    common_ancestors ← Individual_common_ancestors fuel g self (Some relative);
    if decide (common_ancestors = []) then Ret None
    else
      common_ancestor ← index common_ancestors 0;
      my_path ←
        (if decide (self ∈ common_ancestors) then Ret (Some [])
         else
           d ← Individual_distance_to_ancestor fuel g self common_ancestor;
           Individual_down_path fuel g common_ancestor self d);
      his_path ←
        (if decide (relative ∈ common_ancestors) then Ret (Some [])
         else
           d ← Individual_distance_to_ancestor fuel g relative common_ancestor;
           Individual_down_path fuel g common_ancestor relative d);
      my_path ← reverse_method my_path;
      his_path ← reverse_method his_path;
      let '(my_path, his_path) :=
        if decide (relative ∈ my_path)
        then (take_until relative my_path, [relative])
        else (my_path, his_path) in
      let '(my_path, his_path) :=
        if decide (self ∈ his_path)
        then ([self], take_until self his_path)
        else (my_path, his_path) in
      let his_path := reverse his_path in
      let full_path :=
        foldl (λ full_path step, full_path ++ [PyTuple step parent])
              [PyTuple self start] (drop 1 my_path) in
      full_path ←
        (if compact then compact_path g full_path his_path common_ancestor
         else Ret full_path);
      Ret (Some (foldl (λ full_path step, full_path ++ [PyTuple step child])
                       full_path (drop 1 his_path))).

(** ** Sample data *)

Definition sample_individual (famc fams : list addr) : Individual :=
  {| individual_line := mkLine 0 "" "INDI" "" [];
     _parent_families := famc;
     _families := fams;
     birth_events := [];
     death_events := [];
     individual_other_events := [] |}.

Definition sample_family (husb wife : option addr) (chil : list addr) : Family :=
  {| family_line := mkLine 0 "" "FAM" "" [];
     _husband := husb;
     _wife := wife;
     _children := chil;
     marriage_events := [];
     family_other_events := [] |}.

(** A child raised by its grandparents.  Individuals: 0 the grandfather,
    1 his son, 2 and 3 the son's children, 4 the child of 3.  Families:
    0 (husband 0; children 1 and 3), 1 (husband 1; children 2 and 3),
    2 (husband 3; child 4).  Individual 3 is a child of family 1 by birth and
    of family 0 by adoption. *)
Definition adopted_by_grandparents : Gedcom :=
  {| individuals := λ a,
       match a with
       | 0 => sample_individual [] [0]
       | 1 => sample_individual [0] [1]
       | 2 => sample_individual [1] []
       | 3 => sample_individual [1; 0] [2]
       | 4 => sample_individual [2] []
       | _ => sample_individual [] []
       end;
     families := λ a,
       match a with
       | 0 => sample_family (Some 0) None [1; 3]
       | 1 => sample_family (Some 1) None [2; 3]
       | 2 => sample_family (Some 3) None [4]
       | _ => sample_family None None []
       end |}.

(** A family that is its own parent family: individual 1 is recorded as a
    child of family 1, of which he is also the husband.  Individual 0 is the
    child of 1 and 2 (family 0); 3 is the father of 2 (family 2). *)
Definition own_ancestor : Gedcom :=
  {| individuals := λ a,
       match a with
       | 0 => sample_individual [0] []
       | 1 => sample_individual [1] [0; 1]
       | 2 => sample_individual [2] [0]
       | 3 => sample_individual [] [2]
       | _ => sample_individual [] []
       end;
     families := λ a,
       match a with
       | 0 => sample_family (Some 1) (Some 2) [0]
       | 1 => sample_family (Some 1) None [1]
       | 2 => sample_family (Some 3) None [2]
       | _ => sample_family None None []
       end |}.

(** Grandparent 0, parent 1, child 2: family 0 (husband 0; child 1) and
    family 1 (husband 1; child 2). *)
Definition three_generations : Gedcom :=
  {| individuals := λ a,
       match a with
       | 0 => sample_individual [] [0]
       | 1 => sample_individual [0] [1]
       | 2 => sample_individual [1] []
       | _ => sample_individual [] []
       end;
     families := λ a,
       match a with
       | 0 => sample_family (Some 0) None [1]
       | 1 => sample_family (Some 1) None [2]
       | _ => sample_family None None []
       end |}.

(** Individual 0 is a child of two families: family 0 (husband 1, wife 2)
    and family 1 (husband 3, wife 4). *)
Definition two_parent_families : Gedcom :=
  {| individuals := λ a,
       match a with
       | 0 => sample_individual [0; 1] []
       | 1 => sample_individual [] [0]
       | 2 => sample_individual [] [0]
       | 3 => sample_individual [] [1]
       | 4 => sample_individual [] [1]
       | _ => sample_individual [] []
       end;
     families := λ a,
       match a with
       | 0 => sample_family (Some 1) (Some 2) [0]
       | 1 => sample_family (Some 3) (Some 4) [0]
       | _ => sample_family None None []
       end |}.

(** The record of an individual declared a child of @F1@ and of @F2@, with
    a third FAMC line naming a family that no record declares. *)
Definition adopted_line : Line :=
  mkLine 0 "@I1@" "INDI" ""
    [ mkLine 1 "" "NAME" "Ann /Doe/" [];
      mkLine 1 "" "FAMC" "@F1@" [];
      mkLine 1 "" "FAMC" "@F9@" [];
      mkLine 1 "" "FAMC" "@F2@" [] ].

Definition adopted_dict : gmap string addr :=
  <["@F1@" := 1]> (<["@F2@" := 2]> (<["@I1@" := 0]> ∅)).

Definition adopted_gedcom : Gedcom :=
  {| individuals := λ _,
       {| individual_line := adopted_line;
          _parent_families := [1; 2];
          _families := [];
          birth_events := [];
          death_events := [];
          individual_other_events := [] |};
     families := λ _, sample_family None None [] |}.

(** ** Notions used to state the properties *)

(** [k] rounds of replacing every member of a list by its successors. *)
Definition levels {A} (step : A → list A) (l : list A) (k : nat) : list A :=
  Nat.iter k (λ l, l ≫= step) l.

(** The [k]-th generation above [self]: [self] itself for [k = 0], then the
    parents of the members of the previous generation, with repetitions.
    It is the value of [ancestor_list] after [k] rounds of the loop of
    [distance_to_ancestor]. *)
Definition generation (g : Gedcom) (self : addr) (k : nat) : list addr :=
  levels (Individual_parents g) [self] k.

(** The families [k] generations above a list of families. *)
Definition families_above (g : Gedcom) (l : list addr) (k : nat) : list addr :=
  levels (Family_parent_families g) l k.

(** The ancestor families of [self] at generational distance [k]: its parent
    families for [k = 0], then the parent families of the families at
    distance [k - 1]. *)
Definition family_generation (g : Gedcom) (self : addr) (k : nat) : list addr :=
  families_above g (Individual_parent_families g self) k.

(** [candidate] is a parent of [self], or an ancestor of a parent of
    [self]. *)
Inductive ancestor_of (g : Gedcom) : addr → addr → Prop :=
  | ancestor_parent self candidate :
      candidate ∈ Individual_parents g self → ancestor_of g self candidate
  | ancestor_step self p candidate :
      p ∈ Individual_parents g self → ancestor_of g p candidate →
      ancestor_of g self candidate.

(** [d] is the least distance at which [f] is an ancestor family of
    [self]. *)
Definition minimal_distance (g : Gedcom) (self f : addr) (d : nat) : Prop :=
  f ∈ family_generation g self d ∧
  ∀ d', f ∈ family_generation g self d' → d ≤ d'.

(** ** Methods outside the kinship queries *)

(** The line feed character, written ['\n'] in the source. *)
Definition newline : string := String "010"%char EmptyString.

(** [Line.__str__]; [unicode(level)] is the decimal writing of the level. *)
Definition Line_str (self : Line) : string :=
  let result := pretty (level self) in
  let result :=
    if decide (xref self ≠ "") then result +:+ " " +:+ xref self
    else result in
  let result := result +:+ " " +:+ tag self in
  let result :=
    if decide (value self ≠ "") then result +:+ " " +:+ value self
    else result in
  result.

(** [Line.gedcom] *)
Fixpoint Line_gedcom (self : Line) : string :=
  match self with
  | mkLine _ _ _ _ children =>
      foldl (λ result e, result +:+ newline +:+ Line_gedcom e)
            (Line_str self) children
  end.

Definition Individual_sex (g : Gedcom) (self : addr) : outcome (option string) :=
  try_except
    (e ← index (children_tags (individual_line (individuals g self)) "SEX") 0;
     Ret (Some (value e)))
    IndexError (Ret None).

Definition Individual_deceased (g : Gedcom) (self : addr) : outcome bool :=
  a ← Individual_alive g self; Ret (negb a).

(** [string.split(s, sep)] for a separator of one character. *)
Fixpoint split_on (sep : ascii) (s : string) : list string :=
  match s with
  | EmptyString => [EmptyString]
  | String c s' =>
      if decide (c = sep) then EmptyString :: split_on sep s'
      else
        match split_on sep s' with
        | piece :: pieces => String c piece :: pieces
        | [] => [String c EmptyString]
        end
  end.

Section name.
(** [string.strip] belongs to the standard library of Python; what it
    returns is not inspected here. *)
Variable strip : string → string.

(** The body of the loop of [Individual.name], which keeps the pair
    [(first, last)]; [last] may be [None]. *)
Definition name_step (acc : string * option string) (e : Line)
  : outcome (string * option string) :=
  let '(first, last) := acc in
  if decide (tag e = "NAME") then
    if decide (value e ≠ "") then
      let name := split_on "/"%char (value e) in
      n0 ← index name 0;
      let first := strip n0 in
      last ← (if decide (1 < length name)
              then n1 ← index name 1; Ret (Some (strip n1))
              else Ret None);
      Ret (first, last)
    else
      Ret (foldl (λ '(first, last) c,
                    let first :=
                      if decide (tag c = "GIVN") then value c
                      else first in
                    let last :=
                      if decide (tag c = "SURN") then Some (value c)
                      else last in
                    (first, last))
                 (first, last) (children_lines e))
  else Ret (first, last).

Definition Individual_name (g : Gedcom) (self : addr)
  : outcome (string * option string) :=
  for_each (children_lines (individual_line (individuals g self)))
           (EmptyString, Some EmptyString) name_step.

Definition Individual_given_name (g : Gedcom) (self : addr)
  : outcome (option string) :=
  try_except (n ← Individual_name g self; Ret (Some n.1))
             IndexError (Ret None).

Definition Individual_surname (g : Gedcom) (self : addr)
  : outcome (option string) :=
  try_except (n ← Individual_name g self; Ret n.2)
             IndexError (Ret None).

(** [self.father().given_name()]: a list has no method [given_name]. *)
Definition Individual_fathers_name (g : Gedcom) (self : addr)
  : outcome (option string) :=
  father ← Individual_father g self;
  match father with
  | One f => Individual_given_name g f
  | Many _ => Raise AttributeError
  end.
End name.

(** ** Notions for the further properties *)

(** The line and its sub-lines, each before its own sub-lines, in the order
    of the file. *)
Fixpoint preorder (self : Line) : list Line :=
  match self with
  | mkLine _ _ _ _ children => self :: (children ≫= preorder)
  end.

(** ['\n'.join(pieces)] *)
Fixpoint join_lines (pieces : list string) : string :=
  match pieces with
  | [] => EmptyString
  | [piece] => piece
  | piece :: rest => piece +:+ newline +:+ join_lines rest
  end.

(** Every individual of [path] after the first is a child of the one
    before it. *)
Fixpoint child_chain (g : Gedcom) (path : list addr) : Prop :=
  match path with
  | [] => True
  | x :: rest =>
      match rest with
      | [] => True
      | y :: _ => y ∈ Individual_children g x ∧ child_chain g rest
      end
  end.

(** ** Sample data for the further properties *)

(** Husband 0 and wife 1 with their children 2 and 3 (family 0). *)
Definition full_siblings : Gedcom :=
  {| individuals := λ a,
       match a with
       | 0 => sample_individual [] [0]
       | 1 => sample_individual [] [0]
       | 2 => sample_individual [0] []
       | 3 => sample_individual [0] []
       | _ => sample_individual [] []
       end;
     families := λ a,
       match a with
       | 0 => sample_family (Some 0) (Some 1) [2; 3]
       | _ => sample_family None None []
       end |}.

(** The record of a family whose first HUSB line names an individual that no
    record declares. *)
Definition married_line : Line :=
  mkLine 0 "@F1@" "FAM" ""
    [ mkLine 1 "" "HUSB" "@I9@" [];
      mkLine 1 "" "HUSB" "@I1@" [];
      mkLine 1 "" "MARR" "" [ mkLine 2 "" "DATE" "1 JAN 1900" [] ];
      mkLine 1 "" "CHIL" "@I2@" [] ].

(** The record of an individual with two names, a death and two families. *)
Definition widow_line : Line :=
  mkLine 0 "@I1@" "INDI" ""
    [ mkLine 1 "" "NAME" "Ann /Doe/" [];
      mkLine 1 "" "NAME" "Cher" [];
      mkLine 1 "" "SEX" "F" [];
      mkLine 1 "" "DEAT" "" [ mkLine 2 "" "DATE" "1 JAN 1900" [] ];
      mkLine 1 "" "FAMS" "@F1@" [];
      mkLine 1 "" "FAMS" "@F2@" [] ].

Definition sample_dict : gmap string addr :=
  <["@F1@" := 1]> (<["@F2@" := 2]> (<["@I1@" := 1]> (<["@I2@" := 2]> ∅))).

(** The store in which every individual is the one of [widow_line] and
    every family the one of [married_line], both after [_init]. *)
Definition sample_records : Gedcom :=
  {| individuals := λ _,
       match Individual_init sample_dict widow_line with
       | Ret i => i
       | _ => sample_individual [] []
       end;
     families := λ _,
       match Family_init sample_dict married_line with
       | Ret f => f
       | _ => sample_family None None []
       end |}.

(** The husbands, respectively wives, of the parent families of [self], in
    the order of the families. *)
Definition father_candidates (g : Gedcom) (self : addr) : list addr :=
  omap (Family_husband g) (Individual_parent_families g self).

Definition mother_candidates (g : Gedcom) (self : addr) : list addr :=
  omap (Family_wife g) (Individual_parent_families g self).

(** * Properties *)

(** ** Loops that build a list *)

Lemma foldl_snoc_filter {A} (P : A → Prop) `{!∀ x, Decision (P x)}
    (l acc : list A) :
  foldl (λ acc c, if decide (P c) then acc ++ [c] else acc) acc l
  = acc ++ filter P l.
Proof.
  revert acc. induction l as [|x l IH]; intros acc; simpl.
  - by rewrite app_nil_r.
  - rewrite IH, filter_cons. destruct (decide (P x)); [|done].
    by rewrite <- app_assoc.
Qed.

Lemma foldl_extend_bind {A B} (f : A → list B) (l : list A) (acc : list B) :
  foldl (λ acc a, acc ++ f a) acc l = acc ++ (l ≫= f).
Proof.
  revert acc. induction l as [|x l IH]; intros acc; simpl.
  - by rewrite app_nil_r.
  - by rewrite IH, <- app_assoc.
Qed.

Lemma foldl_snoc_map {A B} (f : A → B) (l : list A) (acc : list B) :
  foldl (λ acc a, acc ++ [f a]) acc l = acc ++ map f l.
Proof.
  revert acc. induction l as [|x l IH]; intros acc; simpl.
  - by rewrite app_nil_r.
  - by rewrite IH, <- app_assoc.
Qed.

Lemma foldl_snoc_omap {A B} (f : A → option B) (l : list A) (acc : list B) :
  foldl (λ acc a, match f a with Some b => acc ++ [b] | None => acc end) acc l
  = acc ++ omap f l.
Proof.
  revert acc. induction l as [|x l IH]; intros acc; simpl.
  - by rewrite app_nil_r.
  - rewrite IH. destruct (f x); [|done]. by rewrite <- app_assoc.
Qed.

Lemma children_tags_filter (self : Line) (t : string) :
  children_tags self t = filter (λ c, tag c = t) (children_lines self).
Proof. unfold children_tags. by rewrite foldl_snoc_filter. Qed.

Lemma dereference_loop {R} (_dict : gmap string R) (l : list Line)
    (acc : list R) :
  for_each l acc
    (λ lines e,
       try_except (r ← getitem _dict (value e); Ret (lines ++ [r]))
                  KeyError (Ret lines))
  = Ret (acc ++ omap (λ e, _dict !! value e) l).
Proof.
  revert acc. induction l as [|e l IH]; intros acc; simpl.
  - by rewrite app_nil_r.
  - unfold getitem. destruct (_dict !! value e) as [r|]; simpl.
    + by rewrite IH, <- app_assoc.
    + by rewrite IH.
Qed.

Lemma children_tag_records_closed {R} (_dict : gmap string R)
    (self : Line) (t : string) :
  children_tag_records _dict self t
  = Ret (omap (λ e, _dict !! value e)
              (filter (λ c, tag c = t) (children_lines self))).
Proof.
  unfold children_tag_records.
  by rewrite dereference_loop, children_tags_filter.
Qed.

(** ** Dereferencing through the registry *)

(** C9.  [children_tag_records] never raises: for every registry, line and
    tag it returns the records found in the registry under the values of the
    child lines carrying the tag, in the order of these lines; a child line
    whose value has no entry in the registry contributes nothing. *)
Theorem children_tag_records_omits_unresolved {R} (_dict : gmap string R)
    (self : Line) (t : string) :
  children_tag_records _dict self t
  = Ret (omap (λ e, _dict !! value e)
              (filter (λ c, tag c = t) (children_lines self)))
  ∧ ∀ r, r ∈ omap (λ e, _dict !! value e)
                  (filter (λ c, tag c = t) (children_lines self))
         ↔ ∃ e, e ∈ children_lines self ∧ tag e = t
                ∧ _dict !! value e = Some r.
Proof.
  split; [apply children_tag_records_closed|].
  intros r. rewrite list_elem_of_omap. split.
  - intros (e & He & Hr). apply list_elem_of_filter in He as [Ht He].
    eauto.
  - intros (e & He & Ht & Hr). exists e. split; [|done].
    by apply list_elem_of_filter.
Qed.

(** The third FAMC line of the sample record names a family absent from the
    registry: it is left out, the two others are returned in file order. *)
Example children_tag_records_sample :
  children_tag_records adopted_dict adopted_line "FAMC" = Ret [1; 2].
Proof. vm_compute. reflexivity. Qed.

(** ** Singular accessors *)

(** C7.  For an individual initialised from its record, [parent_families]
    is the list of the families that the registry holds under the values of
    the record's FAMC lines, in the order of these lines.  With two or more
    parent families [parent_family] raises [MultipleReturnValues]; with none
    it returns [None]. *)
Theorem parent_family_ambiguous (_dict : gmap string addr) (line : Line)
    (g : Gedcom) (self : addr) :
  Individual_init _dict line = Ret (individuals g self) →
  Individual_parent_families g self
  = omap (λ e, _dict !! value e)
         (filter (λ c, tag c = "FAMC") (children_lines line))
  ∧ (2 ≤ length (Individual_parent_families g self) →
     Individual_parent_family g self = Raise MultipleReturnValues)
  ∧ (length (Individual_parent_families g self) = 0 →
     Individual_parent_family g self = Ret None).
Proof.
  intros Hinit. split; [|split].
  - unfold Individual_init, get_parent_families, get_families in Hinit.
    rewrite !children_tag_records_closed in Hinit. simpl in Hinit.
    unfold Individual_parent_families.
    injection Hinit as <-. done.
  - intros Hlen. unfold Individual_parent_family.
    repeat case_decide; try lia. done.
  - intros Hlen. unfold Individual_parent_family.
    by rewrite decide_True.
Qed.

Lemma parent_family_ambiguous_witness :
  Individual_parent_families adopted_gedcom 0 = [1; 2]
  ∧ Individual_parent_family adopted_gedcom 0 = Raise MultipleReturnValues.
Proof.
  destruct (parent_family_ambiguous adopted_dict adopted_line adopted_gedcom 0)
    as (Hall & Hmany & _).
  - vm_compute. reflexivity.
  - split.
    + rewrite Hall. vm_compute. reflexivity.
    + apply Hmany. simpl. lia.
Defined.

(** C10.  [Family.marriage] raises [IndexError] when the family has no
    marriage event, whereas [Individual.birth] and [Individual.death] return
    [None] when the individual has no birth, respectively death, event. *)
Theorem marriage_raises_on_no_event (g : Gedcom) (fam ind : addr) :
  (marriage_events (families g fam) = [] →
   Family_marriage g fam = Raise IndexError)
  ∧ (birth_events (individuals g ind) = [] →
     Individual_birth g ind = Ret None)
  ∧ (death_events (individuals g ind) = [] →
     Individual_death g ind = Ret None).
Proof.
  unfold Family_marriage, Individual_birth, Individual_death.
  split; [|split]; intros ->; done.
Qed.

Lemma marriage_raises_on_no_event_witness :
  Family_marriage three_generations 0 = Raise IndexError
  ∧ Individual_birth three_generations 0 = Ret None
  ∧ Individual_death three_generations 0 = Ret None.
Proof.
  destruct (marriage_raises_on_no_event three_generations 0 0)
    as (Hm & Hb & Hd).
  split; [|split].
  - apply Hm. reflexivity.
  - apply Hb. reflexivity.
  - apply Hd. reflexivity.
Defined.

Lemma father_closed (g : Gedcom) (self : addr) :
  Individual_father g self
  = Ret (match father_candidates g self with
         | [f] => One f
         | fathers => Many fathers
         end).
Proof.
  unfold Individual_father, father_candidates.
  rewrite foldl_snoc_omap. simpl.
  destruct (omap _ _) as [|f [|f' l]]; done.
Qed.

Lemma mother_closed (g : Gedcom) (self : addr) :
  Individual_mother g self
  = Ret (match mother_candidates g self with
         | [m] => One m
         | mothers => Many mothers
         end).
Proof.
  unfold Individual_mother, mother_candidates.
  rewrite foldl_snoc_omap. simpl.
  destruct (omap _ _) as [|m [|m' l]]; done.
Qed.

(** C8, as amended.  [father] and [mother] never raise.  When more than one
    candidate exists they return the list of all candidates, in the order of
    the parent families; when none exists they return the empty list; when
    exactly one exists they return that individual. *)
Theorem father_mother_return_lists (g : Gedcom) (self : addr) :
  (1 < length (father_candidates g self) →
   Individual_father g self = Ret (Many (father_candidates g self)))
  ∧ (length (father_candidates g self) = 0 →
     Individual_father g self = Ret (Many []))
  ∧ (∀ f, father_candidates g self = [f] →
     Individual_father g self = Ret (One f))
  ∧ (1 < length (mother_candidates g self) →
     Individual_mother g self = Ret (Many (mother_candidates g self)))
  ∧ (length (mother_candidates g self) = 0 →
     Individual_mother g self = Ret (Many []))
  ∧ (∀ m, mother_candidates g self = [m] →
     Individual_mother g self = Ret (One m)).
Proof.
  rewrite father_closed, mother_closed.
  destruct (father_candidates g self) as [|f [|f' fs]];
    destruct (mother_candidates g self) as [|m [|m' ms]];
    simpl; repeat split; intros; simplify_eq; done || lia.
Qed.

Lemma father_mother_return_lists_witness :
  Individual_father two_parent_families 0 = Ret (Many [1; 3])
  ∧ Individual_father two_parent_families 1 = Ret (Many [])
  ∧ Individual_father three_generations 2 = Ret (One 1)
  ∧ Individual_mother two_parent_families 0 = Ret (Many [2; 4])
  ∧ Individual_mother two_parent_families 1 = Ret (Many [])
  ∧ Individual_mother own_ancestor 0 = Ret (One 2).
Proof.
  destruct (father_mother_return_lists two_parent_families 0)
    as (Hf & _ & _ & Hm & _ & _).
  destruct (father_mother_return_lists two_parent_families 1)
    as (_ & Hf0 & _ & _ & Hm0 & _).
  destruct (father_mother_return_lists three_generations 2)
    as (_ & _ & Hf1 & _ & _ & _).
  destruct (father_mother_return_lists own_ancestor 0)
    as (_ & _ & _ & _ & _ & Hm1).
  split; [|split; [|split; [|split; [|split]]]].
  - apply Hf. vm_compute. lia.
  - apply Hf0. reflexivity.
  - apply Hf1. reflexivity.
  - apply Hm. vm_compute. lia.
  - apply Hm0. reflexivity.
  - apply Hm1. reflexivity.
Defined.

(** C8, as stated, fails: an individual with two parent families, each with
    a husband and a wife, has two candidate fathers and two candidate
    mothers, yet neither accessor raises [MultipleReturnValues]. *)
Lemma father_mother_do_not_raise :
  1 < length (father_candidates two_parent_families 0)
  ∧ 1 < length (mother_candidates two_parent_families 0)
  ∧ Individual_father two_parent_families 0 ≠ Raise MultipleReturnValues
  ∧ Individual_mother two_parent_families 0 ≠ Raise MultipleReturnValues.
Proof.
  split; [vm_compute; lia|]. split; [vm_compute; lia|].
  split; vm_compute; discriminate.
Qed.

(** ** Generations *)

Section levels.
Context {A : Type} (step : A → list A).

Lemma levels_succ (l : list A) (k : nat) :
  levels step l (S k) = levels step l k ≫= step.
Proof. reflexivity. Qed.

Lemma levels_succ_r (l : list A) (k : nat) :
  levels step l (S k) = levels step (l ≫= step) k.
Proof. unfold levels. by rewrite Nat.iter_succ_r. Qed.

Lemma levels_nil (k : nat) : levels step [] k = [].
Proof. induction k as [|k IH]; [done|]. by rewrite levels_succ, IH. Qed.

Lemma levels_app (l1 l2 : list A) (k : nat) :
  levels step (l1 ++ l2) k = levels step l1 k ++ levels step l2 k.
Proof.
  induction k as [|k IH]; [done|].
  by rewrite !levels_succ, IH, bind_app.
Qed.

Lemma levels_cons (x : A) (l : list A) (k : nat) :
  levels step (x :: l) k = levels step [x] k ++ levels step l k.
Proof. apply (levels_app [x] l). Qed.

Lemma levels_singleton_succ (x : A) (k : nat) :
  levels step [x] (S k) = levels step (step x) k.
Proof. by rewrite levels_succ_r, bind_singleton. Qed.

Lemma elem_of_levels (y : A) (l : list A) (k : nat) :
  y ∈ levels step l k ↔ ∃ x, x ∈ l ∧ y ∈ levels step [x] k.
Proof.
  induction l as [|x l IH].
  - rewrite levels_nil. split; [by intros ?%not_elem_of_nil|].
    by intros (x & ?%not_elem_of_nil & _).
  - rewrite levels_cons, elem_of_app, IH. split.
    + intros [?|(x' & ? & ?)]; [exists x|exists x']; split;
        (done || by constructor).
    + intros (x' & [->|?]%elem_of_cons & ?); [by left|right; eauto].
Qed.

Lemma levels_empty_inv (x : A) (l : list A) (k : nat) :
  levels step l k = [] → x ∈ l → levels step [x] k = [].
Proof.
  intros Hnil Hx. destruct (levels step [x] k) as [|y l'] eqn:E; [done|].
  assert (y ∈ levels step l k) as Hy.
  { apply elem_of_levels. exists x. split; [done|]. rewrite E. by left. }
  rewrite Hnil in Hy. by apply not_elem_of_nil in Hy.
Qed.

Lemma levels_empty_mono (l : list A) (n m : nat) :
  levels step l n = [] → n ≤ m → levels step l m = [].
Proof.
  intros Hnil Hle. induction Hle as [|m Hle IH]; [done|].
  by rewrite levels_succ, IH.
Qed.
End levels.

(** ** distance_to_ancestor *)

Lemma distance_loop_unfold (fuel : nat) (g : Gedcom) (ancestor x : addr)
    (l : list addr) (d : nat) :
  distance_to_ancestor_loop (S fuel) g ancestor (x :: l) d
  = if decide (ancestor ∈ x :: l) then Ret (Some d)
    else distance_to_ancestor_loop fuel g ancestor
           ((x :: l) ≫= Individual_parents g) (d + 1).
Proof.
  cbn [distance_to_ancestor_loop]. case_decide; [done|].
  by rewrite foldl_extend_bind.
Qed.

Lemma distance_loop_found (g : Gedcom) (ancestor : addr) (k : nat) :
  ∀ (l : list addr) (d fuel : nat),
    (∀ j, j < k → ancestor ∉ levels (Individual_parents g) l j) →
    ancestor ∈ levels (Individual_parents g) l k →
    k < fuel →
    distance_to_ancestor_loop fuel g ancestor l d = Ret (Some (d + k)).
Proof.
  induction k as [|k IH]; intros l d fuel Hbefore Hin Hfuel.
  - destruct fuel as [|fuel]; [lia|]. simpl in Hin.
    destruct l as [|x l]; [by apply not_elem_of_nil in Hin|].
    rewrite distance_loop_unfold, decide_True by done.
    by rewrite Nat.add_0_r.
  - destruct fuel as [|fuel]; [lia|].
    destruct l as [|x l].
    { rewrite levels_nil in Hin. by apply not_elem_of_nil in Hin. }
    rewrite distance_loop_unfold, decide_False by (apply (Hbefore 0); lia).
    rewrite (IH _ (d + 1) fuel).
    + f_equal. f_equal. lia.
    + intros j Hj. rewrite <- levels_succ_r. apply Hbefore. lia.
    + by rewrite <- levels_succ_r.
    + lia.
Qed.

Lemma distance_loop_exhausted (g : Gedcom) (ancestor : addr) (n : nat) :
  ∀ (l : list addr) (d fuel : nat),
    levels (Individual_parents g) l n = [] →
    (∀ j, j < n → ancestor ∉ levels (Individual_parents g) l j) →
    n ≤ fuel →
    distance_to_ancestor_loop fuel g ancestor l d = Ret None.
Proof.
  induction n as [|n IH]; intros l d fuel Hnil Hbefore Hfuel.
  - simpl in Hnil. subst l. by destruct fuel.
  - destruct l as [|x l]; [by destruct fuel|].
    destruct fuel as [|fuel]; [lia|].
    rewrite distance_loop_unfold, decide_False by (apply (Hbefore 0); lia).
    apply IH.
    + by rewrite <- levels_succ_r.
    + intros j Hj. rewrite <- levels_succ_r. apply Hbefore. lia.
    + lia.
Qed.

(** C4.  The distance from an individual to itself is 0; the distance from
    a child [K] to a grandparent [G], parent of a parent [P] of [K] and
    neither [K] itself nor one of its parents, is 2; and when some
    generation above [self] is empty and none of the generations before it
    contains the sought ancestor, the search returns [None]. *)
Theorem distance_to_ancestor_cases (g : Gedcom) :
  (∀ I fuel, 0 < fuel →
     Individual_distance_to_ancestor fuel g I I = Ret (Some 0))
  ∧ (∀ K P G fuel,
       P ∈ Individual_parents g K → G ∈ Individual_parents g P →
       G ≠ K → G ∉ Individual_parents g K → 2 < fuel →
       Individual_distance_to_ancestor fuel g K G = Ret (Some 2))
  ∧ (∀ self ancestor n fuel,
       generation g self n = [] →
       (∀ k, k < n → ancestor ∉ generation g self k) →
       n ≤ fuel →
       Individual_distance_to_ancestor fuel g self ancestor = Ret None).
Proof.
  unfold Individual_distance_to_ancestor, generation.
  split; [|split].
  - intros I fuel Hfuel.
    apply (distance_loop_found g I 0 [I] 0 fuel); [lia| |done].
    simpl. by left.
  - intros K P G fuel HP HG HGK HGP Hfuel.
    apply (distance_loop_found g G 2 [K] 0 fuel); [| |done].
    + intros [|[|j]] Hj; [| |lia].
      * simpl. by intros ->%list_elem_of_singleton.
      * by rewrite levels_singleton_succ.
    + rewrite levels_singleton_succ, levels_succ.
      apply list_elem_of_bind. exists P. split; done.
  - intros self ancestor n fuel Hnil Hbefore Hfuel.
    by apply (distance_loop_exhausted g ancestor n).
Qed.

Lemma distance_to_ancestor_cases_witness :
  Individual_distance_to_ancestor 3 three_generations 2 2 = Ret (Some 0)
  ∧ Individual_distance_to_ancestor 3 three_generations 2 0 = Ret (Some 2)
  ∧ Individual_distance_to_ancestor 3 three_generations 2 7 = Ret None.
Proof.
  destruct (distance_to_ancestor_cases three_generations) as (H0 & H2 & Hn).
  split; [|split].
  - apply H0. lia.
  - apply (H2 2 1 0).
    + by apply (bool_decide_unpack _); vm_compute.
    + by apply (bool_decide_unpack _); vm_compute.
    + lia.
    + by apply (bool_decide_unpack _); vm_compute.
    + lia.
  - apply (Hn 2 7 3).
    + reflexivity.
    + intros [|[|[|k]]] Hk; [| | |lia];
        by apply (bool_decide_unpack _); vm_compute.
    + lia.
Defined.

(** ** is_ancestor *)

Lemma is_parent_spec (g : Gedcom) (self candidate : addr) :
  Individual_is_parent g self candidate = true
  ↔ candidate ∈ Individual_parents g self.
Proof. unfold Individual_is_parent. by case_decide. Qed.

Lemma any_parent_loop (l : list addr) (f : addr → outcome bool) :
  (∀ p, p ∈ l → ∃ b, f p = Ret b) →
  ∃ b, for_return l (λ p, b ← f p; Ret (if (b : bool) then Some true else None))
                  (Ret false) = Ret b
       ∧ (b = true ↔ ∃ p, p ∈ l ∧ f p = Ret true).
Proof.
  induction l as [|p l IH]; intros Hret.
  - exists false. split; [done|]. split; [done|].
    by intros (p & ?%not_elem_of_nil & _).
  - destruct (Hret p) as [b Hb]; [by left|].
    destruct IH as (b' & Hloop & Hiff).
    { intros q Hq. apply Hret. by right. }
    simpl. rewrite Hb. simpl. destruct b.
    + exists true. split; [done|]. split; [|done].
      intros _. exists p. split; [by left|done].
    + exists b'. split; [done|]. rewrite Hiff. split.
      * intros (q & Hq & Hq'). exists q. split; [by right|done].
      * intros (q & [->|Hq]%elem_of_cons & Hq'); [congruence|eauto].
Qed.

Lemma is_ancestor_decides (g : Gedcom) (candidate : addr) (n : nat) :
  ∀ (self : addr) (fuel : nat),
    generation g self n = [] → n ≤ fuel →
    ∃ b, Individual_is_ancestor fuel g self candidate = Ret b
         ∧ (b = true ↔ ancestor_of g self candidate).
Proof.
  unfold generation.
  induction n as [|n IH]; intros self fuel Hnil Hfuel; [done|].
  destruct fuel as [|fuel]; [lia|].
  rewrite levels_singleton_succ in Hnil.
  cbn [Individual_is_ancestor].
  destruct (Individual_is_parent g self candidate) eqn:Hparent.
  { exists true. split; [done|]. split; [|done].
    intros _. apply ancestor_parent. by apply is_parent_spec. }
  destruct (any_parent_loop (Individual_parents g self)
              (λ p, Individual_is_ancestor fuel g p candidate))
    as (b & Hloop & Hiff).
  { intros p Hp. destruct (IH p fuel) as (b & Hb & _); [|lia|eauto].
    by apply (levels_empty_inv _ p) in Hnil. }
  exists b. split; [done|]. rewrite Hiff. split.
  - intros (p & Hp & Hanc). apply (ancestor_step g self p); [done|].
    destruct (IH p fuel) as (b' & Hb' & Hiff'); [|lia|].
    { by apply (levels_empty_inv _ p) in Hnil. }
    apply Hiff'. congruence.
  - intros Hanc. inversion Hanc as [? ? Hin|? p ? Hp Hanc']; subst.
    + apply is_parent_spec in Hin. congruence.
    + exists p. split; [done|].
      destruct (IH p fuel) as (b' & Hb' & Hiff'); [|lia|].
      { by apply (levels_empty_inv _ p) in Hnil. }
      rewrite Hb'. f_equal. by apply Hiff'.
Qed.

(** In [own_ancestor], the search above individual 1 never returns unless
    it is asked for 1 itself: the only parent of 1 is 1. *)
Lemma own_ancestor_diverges (candidate : addr) (fuel : nat) :
  candidate ≠ 1 →
  Individual_is_ancestor fuel own_ancestor 1 candidate = OutOfFuel.
Proof.
  intros Hne. induction fuel as [|fuel IH]; [done|].
  cbn [Individual_is_ancestor].
  assert (Individual_parents own_ancestor 1 = [1]) as Hparents by done.
  unfold Individual_is_parent. rewrite Hparents.
  rewrite decide_False by (by intros ?%list_elem_of_singleton).
  simpl. by rewrite IH.
Qed.

(** C2, as amended.  When the ancestry above [self] is finite, that is when
    some generation above [self] is empty, [is_ancestor] returns, whatever
    the candidate, as soon as the recursion may go as deep as that
    generation. *)
Theorem is_ancestor_terminates_on_finite_ancestry (g : Gedcom)
    (self candidate : addr) (n fuel : nat) :
  generation g self n = [] → n ≤ fuel →
  ∃ b, Individual_is_ancestor fuel g self candidate = Ret b.
Proof.
  intros Hnil Hfuel.
  destruct (is_ancestor_decides g candidate n self fuel) as (b & Hb & _);
    eauto.
Qed.

Lemma is_ancestor_terminates_on_finite_ancestry_witness :
  ∃ b, Individual_is_ancestor 3 three_generations 2 0 = Ret b.
Proof.
  apply (is_ancestor_terminates_on_finite_ancestry three_generations 2 0 3).
  - reflexivity.
  - lia.
Defined.

(** C2, as stated, fails: in [own_ancestor], where family 1 is its own
    parent family, asking whether 0 is an ancestor of 1 returns for no
    depth of recursion. *)
Lemma is_ancestor_diverges_on_cycle :
  ¬ ∃ fuel r, Individual_is_ancestor fuel own_ancestor 1 0 = Ret r.
Proof.
  intros (fuel & r & Hr). by rewrite own_ancestor_diverges in Hr.
Qed.

(** C6, as amended.  [is_ancestor] returns [True] for every parent of
    [self]; and, when the ancestry above [self] is finite, for every
    ancestor of a parent of [self], at any depth. *)
Theorem is_ancestor_complete (g : Gedcom) (self candidate : addr) :
  (∀ fuel, candidate ∈ Individual_parents g self → 0 < fuel →
     Individual_is_ancestor fuel g self candidate = Ret true)
  ∧ (∀ n fuel, generation g self n = [] → n ≤ fuel →
       ancestor_of g self candidate →
       Individual_is_ancestor fuel g self candidate = Ret true).
Proof.
  split.
  - intros [|fuel] Hparent Hfuel; [lia|].
    cbn [Individual_is_ancestor].
    apply is_parent_spec in Hparent. by rewrite Hparent.
  - intros n fuel Hnil Hfuel Hanc.
    destruct (is_ancestor_decides g candidate n self fuel)
      as (b & Hb & Hiff); [done..|].
    rewrite Hb. f_equal. by apply Hiff.
Qed.

Lemma is_ancestor_complete_witness :
  Individual_is_ancestor 1 three_generations 2 1 = Ret true
  ∧ Individual_is_ancestor 3 three_generations 2 0 = Ret true.
Proof.
  split.
  - apply (is_ancestor_complete three_generations 2 1).
    + by apply (bool_decide_unpack _); vm_compute.
    + lia.
  - apply (is_ancestor_complete three_generations 2 0) with (n := 3).
    + reflexivity.
    + lia.
    + apply (ancestor_step _ 2 1).
      * by apply (bool_decide_unpack _); vm_compute.
      * apply ancestor_parent.
        by apply (bool_decide_unpack _); vm_compute.
Defined.

(** C6, as stated, fails: in [own_ancestor], individual 3 is the father of
    2, who is the mother of 0, so 3 is an ancestor of a parent of 0; yet
    [is_ancestor] explores the father of 0 first, whose ancestry is cyclic,
    and returns for no depth of recursion. *)
Lemma is_ancestor_misses_ancestor_behind_cycle :
  ancestor_of own_ancestor 0 3
  ∧ ¬ ∃ fuel, Individual_is_ancestor fuel own_ancestor 0 3 = Ret true.
Proof.
  split.
  - apply (ancestor_step _ 0 2).
    + by apply (bool_decide_unpack _); vm_compute.
    + apply ancestor_parent. by apply (bool_decide_unpack _); vm_compute.
  - intros ([|fuel] & Hr); [done|].
    cbn [Individual_is_ancestor] in Hr.
    assert (Individual_parents own_ancestor 0 = [1; 2]) as Hparents by done.
    unfold Individual_is_parent in Hr. rewrite Hparents in Hr.
    rewrite decide_False in Hr by (by apply (bool_decide_unpack _)).
    simpl in Hr. by rewrite own_ancestor_diverges in Hr.
Qed.

(** ** sorted and min *)

Lemma insert_by_Permutation {A} (key : A → nat) (x : A) (l : list A) :
  insert_by key x l ≡ₚ x :: l.
Proof.
  induction l as [|y l IH]; simpl; [done|].
  case_decide; [done|]. by rewrite IH, Permutation_swap.
Qed.

Lemma sorted_Permutation {A} (key : A → nat) (l : list A) :
  sorted key l ≡ₚ l.
Proof.
  induction l as [|x l IH]; simpl; [done|].
  by rewrite insert_by_Permutation, IH.
Qed.

Lemma elem_of_sorted {A} (key : A → nat) (l : list A) (x : A) :
  x ∈ sorted key l ↔ x ∈ l.
Proof. by rewrite sorted_Permutation. Qed.

Lemma insert_by_StronglySorted {A} (key : A → nat) (x : A) (l : list A) :
  StronglySorted (λ a b, key a ≤ key b) l →
  StronglySorted (λ a b, key a ≤ key b) (insert_by key x l).
Proof.
  induction 1 as [|y l Hsorted IH Hall]; simpl.
  - repeat constructor.
  - case_decide.
    + constructor; [by constructor|]. constructor; [done|].
      eapply Forall_impl; [done|]. simpl. lia.
    + constructor; [done|]. rewrite insert_by_Permutation.
      constructor; [lia|done].
Qed.

Lemma sorted_StronglySorted {A} (key : A → nat) (l : list A) :
  StronglySorted le (key <$> sorted key l).
Proof.
  assert (StronglySorted (λ a b, key a ≤ key b) (sorted key l)) as Hsorted.
  { induction l as [|x l IH]; simpl; [constructor|].
    by apply insert_by_StronglySorted. }
  induction Hsorted as [|y l' _ IH Hall]; simpl; constructor; [done|].
  by apply Forall_fmap.
Qed.

Lemma py_min_fold {A} (key : A → nat) (l : list A) (x : A) :
  let m := foldl (λ m y, if decide (key y < key m) then y else m) x l in
  m ∈ x :: l ∧ ∀ y, y ∈ x :: l → key m ≤ key y.
Proof.
  revert x. induction l as [|z l IH]; intros x; simpl.
  - split; [by left|]. by intros y ->%list_elem_of_singleton.
  - destruct (IH (if decide (key z < key x) then z else x)) as [Hin Hle].
    split.
    + apply elem_of_cons in Hin as [->|Hin].
      * case_decide; [right; by left|by left].
      * right. by right.
    + intros y Hy.
      assert (key (if decide (key z < key x) then z else x) ≤ key x
              ∧ key (if decide (key z < key x) then z else x) ≤ key z)
        as [Hx Hz] by (case_decide; lia).
      apply elem_of_cons in Hy as [->|[->|Hy]%elem_of_cons].
      * etrans; [|exact Hx]. apply Hle. by left.
      * etrans; [|exact Hz]. apply Hle. by left.
      * apply Hle. by right.
Qed.

Lemma py_min_spec {A} (key : A → nat) (l : list A) :
  l ≠ [] →
  ∃ m, py_min key l = Ret m ∧ m ∈ l ∧ ∀ y, y ∈ l → key m ≤ key y.
Proof.
  destruct l as [|x l]; [done|]. intros _. simpl.
  eexists. split; [done|]. apply py_min_fold.
Qed.

Lemma elem_of_set_intersection (a b : list addr) (x : addr) :
  x ∈ set_intersection a b ↔ x ∈ a ∧ x ∈ b.
Proof.
  unfold set_intersection.
  by rewrite elem_of_elements, elem_of_intersection, !elem_of_list_to_set.
Qed.

(** ** Ancestor families *)

Lemma for_each_ext {A S} (l : list A) (s : S) (f h : S → A → outcome S) :
  (∀ s x, f s x = h s x) → for_each l s f = for_each l s h.
Proof.
  intros Hext. revert s. induction l as [|x l IH]; intros s; simpl; [done|].
  rewrite Hext. destruct (h s x); simpl; auto.
Qed.

Lemma for_each_extend {A B} (f : A → outcome (list B)) (l : list A)
    (acc : list B) :
  (∀ x, x ∈ l → ∃ r, f x = Ret r) →
  ∃ rs, for_each l acc (λ acc x, r ← f x; Ret (acc ++ r)) = Ret (acc ++ rs)
        ∧ ∀ y, y ∈ rs ↔ ∃ x r, x ∈ l ∧ f x = Ret r ∧ y ∈ r.
Proof.
  revert acc. induction l as [|x l IH]; intros acc Hret.
  - exists []. rewrite app_nil_r. split; [done|]. intros y. split.
    + by intros ?%not_elem_of_nil.
    + by intros (x & r & ?%not_elem_of_nil & _).
  - destruct (Hret x) as [r Hr]; [by left|].
    destruct (IH (acc ++ r)) as (rs & Hloop & Hiff).
    { intros x' Hx'. apply Hret. by right. }
    exists (r ++ rs). simpl. rewrite Hr. simpl. rewrite Hloop.
    split; [by rewrite app_assoc|].
    intros y. rewrite elem_of_app, Hiff. split.
    + intros [Hy|(x' & r' & Hx' & Hr' & Hy)].
      * exists x, r. split; [by left|done].
      * exists x', r'. split; [by right|done].
    + intros (x' & r' & [->|Hx']%elem_of_cons & Hr' & Hy).
      * left. congruence.
      * right. eauto.
Qed.

Lemma family_ancestors_spec (g : Gedcom) (n : nat) :
  ∀ (self distance fuel : nat),
    families_above g [self] n = [] → n ≤ fuel →
    ∃ l, Family__ancestor_families_with_distance fuel g self distance = Ret l
         ∧ ∀ f k, (f, k) ∈ l
                  ↔ ∃ j, k = distance + j ∧ f ∈ families_above g [self] (S j).
Proof.
  unfold families_above.
  induction n as [|n IH]; intros self distance fuel Hnil Hfuel; [done|].
  destruct fuel as [|fuel]; [lia|].
  rewrite levels_singleton_succ in Hnil.
  cbn [Family__ancestor_families_with_distance].
  rewrite foldl_snoc_map. simpl app.
  destruct (for_each_extend
              (λ fam, Family__ancestor_families_with_distance fuel g fam
                        (distance + 1))
              (Family_parent_families g self)
              (map (λ fam, (fam, distance)) (Family_parent_families g self)))
    as (rs & Hloop & Hiff).
  { intros fam Hfam. destruct (IH fam (distance + 1) fuel) as (l & Hl & _);
      [|lia|eauto].
    by apply (levels_empty_inv _ fam) in Hnil. }
  eexists. split; [exact Hloop|].
  intros f k. rewrite elem_of_app, Hiff. split.
  - intros [Hhere|(fam & r & Hfam & Hr & Hin)].
    + apply list_elem_of_fmap in Hhere as (fam & [= -> ->] & Hfam).
      exists 0. split; [lia|]. by rewrite levels_singleton_succ.
    + destruct (IH fam (distance + 1) fuel) as (l & Hl & Hspec); [|lia|].
      { by apply (levels_empty_inv _ fam) in Hnil. }
      rewrite Hl in Hr. injection Hr as <-.
      apply Hspec in Hin as (j & -> & Hin).
      exists (S j). split; [lia|].
      rewrite levels_singleton_succ. apply elem_of_levels. eauto.
  - intros ([|j] & -> & Hin); rewrite levels_singleton_succ in Hin.
    + left. apply list_elem_of_fmap. exists f. split; [|done].
      by rewrite Nat.add_0_r.
    + right. apply elem_of_levels in Hin as (fam & Hfam & Hin).
      destruct (IH fam (distance + 1) fuel) as (l & Hl & Hspec); [|lia|].
      { by apply (levels_empty_inv _ fam) in Hnil. }
      exists fam, l. split; [done|]. split; [done|].
      apply Hspec. exists j. split; [lia|done].
Qed.

Lemma individual_ancestors_spec (g : Gedcom) (self n fuel : nat) :
  family_generation g self n = [] → n ≤ fuel →
  ∃ l, Individual_ancestor_families_with_distance fuel g self = Ret l
       ∧ StronglySorted le (l.*2)
       ∧ ∀ f k, (f, k) ∈ l ↔ f ∈ family_generation g self k.
Proof.
  unfold family_generation, families_above. intros Hnil Hfuel.
  unfold Individual_ancestor_families_with_distance.
  rewrite (for_each_ext _ _ _
             (λ acc fam,
                r ← (l ← Family__ancestor_families_with_distance fuel g fam 1;
                     Ret ((fam, 0) :: l));
                Ret (acc ++ r))).
  2:{ intros acc fam.
      destruct (Family__ancestor_families_with_distance fuel g fam 1);
        simpl; [|done..].
      by rewrite <- app_assoc. }
  assert (∀ fam, fam ∈ Individual_parent_families g self →
            ∃ l, Family__ancestor_families_with_distance fuel g fam 1 = Ret l
                 ∧ ∀ f k, (f, k) ∈ l
                     ↔ ∃ j, k = 1 + j ∧ f ∈ families_above g [fam] (S j))
    as Hfam.
  { intros fam Hfam. apply (family_ancestors_spec g n); [|done].
    by apply (levels_empty_inv _ fam) in Hnil. }
  destruct (for_each_extend
              (λ fam, l ← Family__ancestor_families_with_distance fuel g fam 1;
                      Ret ((fam, 0) :: l))
              (Individual_parent_families g self) [])
    as (rs & Hloop & Hiff).
  { intros fam (l & Hl & _)%Hfam. rewrite Hl. simpl. eauto. }
  rewrite Hloop. simpl. eexists. split; [done|].
  split; [apply sorted_StronglySorted|].
  intros f k. rewrite elem_of_sorted, Hiff, elem_of_levels. split.
  - intros (fam & r & Hin & Hr & Hfk).
    destruct (Hfam fam Hin) as (l & Hl & Hspec).
    rewrite Hl in Hr. simpl in Hr. injection Hr as <-.
    exists fam. split; [done|].
    apply elem_of_cons in Hfk as [[= -> ->]|Hfk]; [by left|].
    by apply Hspec in Hfk as (j & -> & Hfk).
  - intros (fam & Hin & Hfk).
    destruct (Hfam fam Hin) as (l & Hl & Hspec).
    exists fam, ((fam, 0) :: l). split; [done|].
    split; [by rewrite Hl|].
    destruct k as [|j].
    + apply list_elem_of_singleton in Hfk as ->. by left.
    + right. apply Hspec. exists j. split; [lia|done].
Qed.

Lemma minimal_distance_exists (g : Gedcom) (self f d : addr) :
  f ∈ family_generation g self d → ∃ d0, minimal_distance g self f d0.
Proof.
  intros Hin.
  destruct (dec_inh_nat_subset_has_unique_least_element
              (λ k, f ∈ family_generation g self k)) as (d0 & [H0 Hleast] & _).
  - intros k. destruct (decide (f ∈ family_generation g self k)); auto.
  - eauto.
  - exists d0. split; [done|]. intros d' Hd'. by apply Hleast.
Qed.

(** C3, as amended.  For an individual whose ancestor families run out
    after finitely many generations, [ancestor_families_with_distance]
    returns a list of pairs sorted ascending by distance, which holds the
    pair [(f, d)] exactly when family [f] is reached in [d] generational
    steps (0 for a parent family of the individual).  Hence every ancestor
    family occurs with its minimal distance and with no smaller one; it
    occurs again with each larger distance at which it is also reached. *)
Theorem ancestor_families_with_distance_spec (g : Gedcom) (self : addr)
    (n fuel : nat) :
  family_generation g self n = [] → n ≤ fuel →
  ∃ l, Individual_ancestor_families_with_distance fuel g self = Ret l
       ∧ StronglySorted le (l.*2)
       ∧ (∀ f d, (f, d) ∈ l ↔ f ∈ family_generation g self d)
       ∧ (∀ f d, (f, d) ∈ l →
            ∃ d0, minimal_distance g self f d0 ∧ (f, d0) ∈ l
                  ∧ ∀ d', (f, d') ∈ l → d0 ≤ d').
Proof.
  intros Hnil Hfuel.
  destruct (individual_ancestors_spec g self n fuel) as (l & Hl & Hs & Hiff);
    [done..|].
  exists l. split; [done|]. split; [done|]. split; [done|].
  intros f d Hin. apply Hiff in Hin.
  destruct (minimal_distance_exists g self f d Hin) as (d0 & Hmin).
  exists d0. split; [done|]. destruct Hmin as [H0 Hleast].
  split; [by apply Hiff|].
  intros d' Hd'. apply Hleast. by apply Hiff.
Qed.

Lemma ancestor_families_with_distance_spec_witness :
  ∃ l, Individual_ancestor_families_with_distance 3 adopted_by_grandparents 4
       = Ret l
       ∧ StronglySorted le (l.*2)
       ∧ (∀ f d, (f, d) ∈ l
                 ↔ f ∈ family_generation adopted_by_grandparents 4 d)
       ∧ (∀ f d, (f, d) ∈ l →
            ∃ d0, minimal_distance adopted_by_grandparents 4 f d0
                  ∧ (f, d0) ∈ l ∧ ∀ d', (f, d') ∈ l → d0 ≤ d').
Proof.
  apply (ancestor_families_with_distance_spec adopted_by_grandparents 4 3 3).
  - reflexivity.
  - lia.
Defined.

(** C3, as stated, fails: individual 4 of [adopted_by_grandparents] reaches
    family 0 in one step through the adoptive family of its father and in
    two steps through his family by birth.  The list returned holds family 0
    with distance 2 as well, which is not its minimal distance. *)
Lemma ancestor_families_not_minimal :
  Individual_ancestor_families_with_distance 3 adopted_by_grandparents 4
  = Ret [(2, 0); (1, 1); (0, 1); (0, 2)]
  ∧ ¬ minimal_distance adopted_by_grandparents 4 0 2.
Proof.
  split; [by vm_compute|].
  intros [_ Hleast]. specialize (Hleast 1).
  assert (0 ∈ family_generation adopted_by_grandparents 4 1) as Hin
    by (by apply (bool_decide_unpack _); vm_compute).
  apply Hleast in Hin. lia.
Qed.

(** ** common_ancestor_families *)

Lemma set_intersection_nil (a b : list addr) :
  set_intersection a b = [] ↔ ∀ x, ¬ (x ∈ a ∧ x ∈ b).
Proof.
  split.
  - intros Hnil x Hx. apply elem_of_set_intersection in Hx.
    rewrite Hnil in Hx. by apply not_elem_of_nil in Hx.
  - intros Hnone. apply elem_of_nil_inv. intros x Hx.
    apply elem_of_set_intersection in Hx. by apply (Hnone x).
Qed.

Lemma elem_of_fst (l : list (addr * nat)) (f : addr) :
  f ∈ l.*1 ↔ ∃ d, (f, d) ∈ l.
Proof.
  rewrite list_elem_of_fmap. split.
  - intros ([f' d] & -> & Hin). by exists d.
  - intros (d & Hin). by exists (f, d).
Qed.

(** The part of [common_ancestor_families] that follows the test on the
    mutual parent families, given the two lists of ancestor families. *)
Lemma common_ancestor_families_intersection (fuel : nat) (g : Gedcom)
    (A B : addr) (mine his : list (addr * nat)) :
  Individual_mutual_parent_families g A B = [] →
  Individual_ancestor_families_with_distance fuel g A = Ret mine →
  Individual_ancestor_families_with_distance fuel g B = Ret his →
  ∃ r, Individual_common_ancestor_families fuel g A (Some B) = Ret r
       ∧ ((∀ f, ¬ (f ∈ mine.*1 ∧ f ∈ his.*1)) → r = [])
       ∧ (∀ f0, f0 ∈ mine.*1 → f0 ∈ his.*1 →
            ∃ m, (∃ f1, (f1, m) ∈ mine ∧ f1 ∈ his.*1)
                 ∧ (∀ f d, (f, d) ∈ mine → f ∈ his.*1 → m ≤ d)
                 ∧ ∀ f, f ∈ r ↔ (f, m) ∈ mine ∧ f ∈ his.*1).
Proof.
  intros Hmutual Hmine Hhis.
  unfold Individual_common_ancestor_families.
  rewrite Hmutual, decide_False by (by intros []).
  rewrite Hmine. simpl.
  destruct (decide (mine = [])) as [->|Hmine_ne].
  { exists []. split; [done|]. split; [done|].
    by intros f0 ?%not_elem_of_nil. }
  rewrite Hhis. simpl.
  destruct (decide (his = [])) as [->|Hhis_ne].
  { exists []. split; [done|]. split; [done|].
    by intros f0 _ ?%not_elem_of_nil. }
  change (map fst mine) with (mine.*1). change (map fst his) with (his.*1).
  destruct (decide (set_intersection (mine.*1) (his.*1) = []))
    as [Hnone|Hsome].
  { exists []. split; [done|]. split; [done|].
    intros f0 H1 H2.
    by destruct (proj1 (set_intersection_nil _ _) Hnone f0). }
  set (common := filter (λ fd, fd.1 ∈ set_intersection (mine.*1) (his.*1)) mine).
  assert (∀ f d, (f, d) ∈ common ↔ (f, d) ∈ mine ∧ f ∈ his.*1) as Hcommon.
  { intros f d. unfold common.
    rewrite list_elem_of_filter, elem_of_set_intersection. simpl.
    rewrite elem_of_fst. split.
    - by intros [[_ ?] ?].
    - intros [? ?]. split; [split; [eauto|done]|done]. }
  assert (common ≠ []) as Hcommon_ne.
  { intros Hnil. apply Hsome, set_intersection_nil. intros x [H1 H2].
    apply elem_of_fst in H1 as [d Hd].
    assert ((x, d) ∈ common) as Hin by (by apply Hcommon).
    rewrite Hnil in Hin. by apply not_elem_of_nil in Hin. }
  destruct (py_min_spec snd common Hcommon_ne) as ([fm m] & Hmin & Hin & Hle).
  rewrite Hmin. simpl.
  eexists. split; [done|]. split.
  { intros Hnone. by destruct Hsome; apply set_intersection_nil. }
  intros f0 _ _. exists m. split; [|split].
  - exists fm. by apply Hcommon.
  - intros f d Hfd Hf. apply (Hle (f, d)). by apply Hcommon.
  - intros f. change (map fst ?l) with (l.*1).
    rewrite elem_of_fst. split.
    + intros (d & Hfd). apply list_elem_of_filter in Hfd as [Hd Hfd].
      simpl in Hd. subst d. by apply Hcommon.
    + intros Hfm. exists m. apply list_elem_of_filter. split; [done|].
      by apply Hcommon.
Qed.

(** C1, as amended.  The mutual parent families of [A] and [B] are the
    families that are parent families of both, each listed once.  When there are some,
    [common_ancestor_families] returns them.  Otherwise, given the two lists
    of ancestor families with distances, it returns the empty list when no
    family occurs in both, and else exactly the families occurring in both
    that [A]'s list holds with the least distance [m] found in [A]'s list
    among the families occurring in both.  It returns as soon as the
    ancestor families of both individuals run out after finitely many
    generations. *)
Theorem common_ancestor_families_spec (g : Gedcom) (A B : addr) :
  (NoDup (Individual_mutual_parent_families g A B)
   ∧ ∀ f, f ∈ Individual_mutual_parent_families g A B
          ↔ f ∈ Individual_parent_families g A
            ∧ f ∈ Individual_parent_families g B)
  ∧ (Individual_mutual_parent_families g A B ≠ [] →
     ∀ fuel, Individual_common_ancestor_families fuel g A (Some B)
             = Ret (Individual_mutual_parent_families g A B))
  ∧ (Individual_mutual_parent_families g A B = [] →
     ∀ fuel mine his,
       Individual_ancestor_families_with_distance fuel g A = Ret mine →
       Individual_ancestor_families_with_distance fuel g B = Ret his →
       ∃ r, Individual_common_ancestor_families fuel g A (Some B) = Ret r
            ∧ ((∀ f, ¬ (f ∈ mine.*1 ∧ f ∈ his.*1)) → r = [])
            ∧ (∀ f0, f0 ∈ mine.*1 → f0 ∈ his.*1 →
                 ∃ m, (∃ f1, (f1, m) ∈ mine ∧ f1 ∈ his.*1)
                      ∧ (∀ f d, (f, d) ∈ mine → f ∈ his.*1 → m ≤ d)
                      ∧ ∀ f, f ∈ r ↔ (f, m) ∈ mine ∧ f ∈ his.*1))
  ∧ (∀ n fuel,
       family_generation g A n = [] → family_generation g B n = [] →
       n ≤ fuel →
       ∃ r, Individual_common_ancestor_families fuel g A (Some B) = Ret r).
Proof.
  split; [|split; [|split]].
  - split; [apply NoDup_elements|].
    intros f. apply elem_of_set_intersection.
  - intros Hmutual fuel. unfold Individual_common_ancestor_families.
    by rewrite decide_True.
  - intros Hmutual fuel mine his Hmine Hhis.
    by apply common_ancestor_families_intersection.
  - intros n fuel HA HB Hfuel.
    destruct (decide (Individual_mutual_parent_families g A B = []))
      as [Hmutual|Hmutual].
    + destruct (individual_ancestors_spec g A n fuel) as (mine & Hmine & _);
        [done..|].
      destruct (individual_ancestors_spec g B n fuel) as (his & Hhis & _);
        [done..|].
      destruct (common_ancestor_families_intersection fuel g A B mine his)
        as (r & Hr & _); eauto.
    + eexists. unfold Individual_common_ancestor_families.
      by rewrite decide_True.
Qed.

Lemma common_ancestor_families_spec_witness :
  Individual_common_ancestor_families 3 adopted_by_grandparents 2 (Some 3)
  = Ret [1]
  ∧ (∃ r, Individual_common_ancestor_families 3 adopted_by_grandparents 2
            (Some 4) = Ret r
          ∧ ∀ f, f ∈ r ↔ f = 1)
  ∧ ∃ r, Individual_common_ancestor_families 3 adopted_by_grandparents 0
           (Some 4) = Ret r.
Proof.
  split; [|split].
  - destruct (common_ancestor_families_spec adopted_by_grandparents 2 3)
      as (_ & Hshared & _).
    apply (Hshared ltac:(by vm_compute) 3).
  - destruct (common_ancestor_families_spec adopted_by_grandparents 2 4)
      as (_ & _ & Hinter & _).
    destruct (Hinter ltac:(by vm_compute) 3
                [(1, 0); (0, 1)] [(2, 0); (1, 1); (0, 1); (0, 2)]
                ltac:(by vm_compute) ltac:(by vm_compute))
      as (r & Hr & _ & Hmin).
    exists r. split; [exact Hr|].
    destruct (Hmin 1) as (m & (f1 & Hf1 & _) & Hle & Hiff).
    { by apply (bool_decide_unpack _); vm_compute. }
    { by apply (bool_decide_unpack _); vm_compute. }
    assert (m = 0) as ->.
    { specialize (Hle 1 0). cut (m ≤ 0); [lia|]. apply Hle.
      - by apply (bool_decide_unpack _); vm_compute.
      - by apply (bool_decide_unpack _); vm_compute. }
    intros f. rewrite Hiff. split.
    + intros [Hin _]. apply elem_of_cons in Hin as [[= ->]|Hin]; [done|].
      apply list_elem_of_singleton in Hin. by injection Hin.
    + intros ->. split; by apply (bool_decide_unpack _); vm_compute.
  - destruct (common_ancestor_families_spec adopted_by_grandparents 0 4)
      as (_ & _ & _ & Hret).
    apply (Hret 3 3); [reflexivity|reflexivity|lia].
Defined.

(** In [own_ancestor], family 1 is its own parent family: the walk above it
    returns for no depth of recursion, and neither does the walk above
    individual 0, whose parent family 0 has family 1 as its first parent
    family. *)
Lemma own_ancestor_family_walk_diverges (fuel distance : nat) :
  Family__ancestor_families_with_distance fuel own_ancestor 1 distance
  = OutOfFuel.
Proof.
  revert distance. induction fuel as [|fuel IH]; intros distance; [done|].
  cbn [Family__ancestor_families_with_distance].
  assert (Family_parent_families own_ancestor 1 = [1]) as -> by done.
  cbn [for_each foldl]. by rewrite IH.
Qed.

Lemma own_ancestor_walk_diverges (fuel : nat) :
  Individual_ancestor_families_with_distance fuel own_ancestor 0 = OutOfFuel.
Proof.
  unfold Individual_ancestor_families_with_distance.
  assert (Individual_parent_families own_ancestor 0 = [0]) as -> by done.
  cbn [for_each].
  destruct fuel as [|fuel]; [done|].
  cbn [Family__ancestor_families_with_distance].
  assert (Family_parent_families own_ancestor 0 = [1; 2]) as -> by done.
  cbn [for_each foldl]. by rewrite own_ancestor_family_walk_diverges.
Qed.

(** C1, as stated, fails: in [own_ancestor], individuals 0 and 3 share no
    parent family and 3 has no ancestor family at all, so that no family is
    an ancestor family of both; yet [common_ancestor_families] does not
    return the empty list: the walk above 0 enters family 1, which is its
    own parent family, and the call returns for no depth of recursion. *)
Lemma common_ancestor_families_diverges_on_cycle :
  Individual_mutual_parent_families own_ancestor 0 3 = []
  ∧ (∀ k, family_generation own_ancestor 3 k = [])
  ∧ ¬ ∃ fuel r,
        Individual_common_ancestor_families fuel own_ancestor 0 (Some 3)
        = Ret r.
Proof.
  split; [done|]. split.
  - intros k. unfold family_generation, families_above, levels.
    induction k as [|k IH]; [done|]. simpl. by rewrite IH.
  - intros (fuel & r & Hr).
    unfold Individual_common_ancestor_families in Hr.
    rewrite decide_False in Hr by (by intros []).
    by rewrite own_ancestor_walk_diverges in Hr.
Qed.

(** ** path_to_relative *)

Lemma compact_path_sibling (g : Gedcom) (full_path : list path_entry)
    (his_path : list addr) (common_ancestor step c : addr) (d : direction) :
  last full_path = Some (PyTuple step d) →
  his_path !! 1 = Some c →
  Individual_is_sibling g step c = true →
  compact_path g full_path his_path common_ancestor = Raise TypeError.
Proof.
  intros Hlast Hc Hsibling.
  unfold compact_path, set_last_direction, index_last, index.
  rewrite Hlast, Hc. simpl. by rewrite Hsibling.
Qed.

Lemma compact_path_fallback (g : Gedcom) (full_path : list path_entry)
    (his_path : list addr) (common_ancestor : addr) (e : path_entry) :
  last full_path = Some e →
  his_path !! 1 = None →
  compact_path g full_path his_path common_ancestor
  = Ret (full_path ++ [PyList common_ancestor child]).
Proof.
  intros Hlast Hc. unfold compact_path, index_last, index.
  by rewrite Hlast, Hc.
Qed.

Lemma compact_path_cases (g : Gedcom) (full_path : list path_entry)
    (his_path : list addr) (common_ancestor step : addr) (d : direction) :
  last full_path = Some (PyTuple step d) →
  compact_path g full_path his_path common_ancestor = Raise TypeError
  ∨ compact_path g full_path his_path common_ancestor
    = Ret (full_path ++ [PyList common_ancestor child]).
Proof.
  intros Hlast. destruct (his_path !! 1) as [c|] eqn:Hc.
  - destruct (Individual_is_sibling g step c) eqn:Hsibling.
    + left. by eapply compact_path_sibling.
    + right. unfold compact_path, index_last, index.
      rewrite Hlast, Hc. simpl. by rewrite Hsibling.
  - right. by eapply compact_path_fallback.
Qed.

Lemma up_path_last (acc : list path_entry) (my_path : list addr) :
  (∃ step d, last acc = Some (PyTuple step d)) →
  ∃ step d,
    last (foldl (λ full_path step, full_path ++ [PyTuple step parent])
                acc my_path) = Some (PyTuple step d).
Proof.
  revert acc. induction my_path as [|x l IH]; intros acc Hacc; [done|].
  simpl. apply IH. rewrite last_snoc. eauto.
Qed.

Lemma up_path_directions (self : addr) (my_path : list addr) (e : path_entry) :
  e ∈ foldl (λ full_path step, full_path ++ [PyTuple step parent])
            [PyTuple self start] my_path →
  entry_direction e ≠ sibling.
Proof.
  rewrite foldl_snoc_map. intros [->|Hin]%elem_of_cons; [done|].
  apply list_elem_of_fmap in Hin as (x & -> & _). done.
Qed.

(** No path returned by [path_to_relative] carries the label [sibling]:
    the branch that would set it always ends in [TypeError]. *)
Lemma path_to_relative_never_sibling (fuel : nat) (g : Gedcom)
    (self relative : addr) (compact : bool) (path : list path_entry) :
  Individual_path_to_relative fuel g self relative compact = Ret (Some path) →
  ∀ e, e ∈ path → entry_direction e ≠ sibling.
Proof.
  unfold Individual_path_to_relative. intros Hpath e He.
  destruct (decide (relative = self)).
  { injection Hpath as <-. apply list_elem_of_singleton in He as ->. done. }
  destruct (decide (relative ∈ Individual_parents g self)).
  { injection Hpath as <-.
    apply elem_of_cons in He as [->|He]; [done|].
    by apply list_elem_of_singleton in He as ->. }
  destruct (decide (relative ∈ Individual_children g self)).
  { injection Hpath as <-.
    apply elem_of_cons in He as [->|He]; [done|].
    by apply list_elem_of_singleton in He as ->. }
  destruct (Individual_common_ancestors fuel g self (Some relative))
    as [cas| |]; simpl in Hpath; [|done..].
  destruct (decide (cas = [])); [done|].
  destruct (index cas 0) as [ca| |]; simpl in Hpath; [|done..].
  match type of Hpath with
  | mbind _ ?m = _ => destruct m as [my_path| |]; simpl in Hpath; [|done..]
  end.
  match type of Hpath with
  | mbind _ ?m = _ => destruct m as [his_path| |]; simpl in Hpath; [|done..]
  end.
  destruct (reverse_method my_path) as [my| |]; simpl in Hpath; [|done..].
  destruct (reverse_method his_path) as [his| |]; simpl in Hpath; [|done..].
  destruct (if decide (relative ∈ my) then _ else _) as [my1 his1].
  destruct (if decide (self ∈ his1) then _ else _) as [my2 his2].
  match type of Hpath with
  | mbind _ ?m = _ => destruct m as [full| |] eqn:Hfull; simpl in Hpath; [|done..]
  end.
  injection Hpath as <-.
  rewrite foldl_snoc_map in He. apply elem_of_app in He as [He|He].
  2:{ apply list_elem_of_fmap in He as (x & -> & _). done. }
  destruct compact.
  - destruct (up_path_last [PyTuple self start] (drop 1 my2))
      as (step & d & Hlast); [by eexists _, _|].
    destruct (compact_path_cases g _ (reverse his2) ca step d Hlast)
      as [Hraise|Hret]; rewrite Hfull in *; [done|].
    injection Hret as ->.
    apply elem_of_app in He as [He|He].
    + by eapply up_path_directions.
    + by apply list_elem_of_singleton in He as ->.
  - injection Hfull as <-. by eapply up_path_directions.
Qed.

(** C5.  In [adopted_by_grandparents], the path from individual 2 to
    individual 4 goes up to 1, the father of 2, and down through 3, the
    father of 4.  Individuals 1 and 3 share the parent family 0, so the last
    step labelled [parent] and the first step labelled [child] are siblings.
    Without [compact] the path is returned; with [compact] the assignment of
    the label [sibling] into a tuple raises [TypeError], whatever the depth
    of recursion allowed beyond the three levels the search needs. *)
Theorem compact_sibling_raises_TypeError (fuel : nat) :
  3 ≤ fuel →
  Individual_is_sibling adopted_by_grandparents 1 3 = true
  ∧ Individual_path_to_relative fuel adopted_by_grandparents 2 4 false
    = Ret (Some [PyTuple 2 start; PyTuple 1 parent;
                 PyTuple 3 child; PyTuple 4 child])
  ∧ Individual_path_to_relative fuel adopted_by_grandparents 2 4 true
    = Raise TypeError.
Proof.
  intros Hfuel.
  destruct fuel as [|[|[|fuel]]]; [lia..|].
  split; [|split]; by vm_compute.
Qed.

Lemma compact_sibling_raises_TypeError_witness :
  Individual_path_to_relative 3 adopted_by_grandparents 2 4 true
  = Raise TypeError.
Proof.
  apply (compact_sibling_raises_TypeError 3). lia.
Defined.

(** * Further properties *)

#[local] Set Warnings "-clear-no-such-hyp".

(** ** Initialisation from the record *)

Lemma parse_generic_event_list_closed (self : Line) (t : string) :
  _parse_generic_event_list self t
  = map mkEvent (filter (λ c, tag c = t) (children_lines self)).
Proof.
  unfold _parse_generic_event_list.
  by rewrite foldl_snoc_map, children_tags_filter.
Qed.

Lemma Individual_init_fields (_dict : gmap string addr) (line : Line)
    (i : Individual) :
  Individual_init _dict line = Ret i →
  individual_line i = line
  ∧ _parent_families i
    = omap (λ e, _dict !! value e)
           (filter (λ c, tag c = "FAMC") (children_lines line))
  ∧ _families i
    = omap (λ e, _dict !! value e)
           (filter (λ c, tag c = "FAMS") (children_lines line))
  ∧ birth_events i
    = map mkEvent (filter (λ c, tag c = "BIRT") (children_lines line))
  ∧ death_events i
    = map mkEvent (filter (λ c, tag c = "DEAT") (children_lines line)).
Proof.
  unfold Individual_init, get_parent_families, get_families.
  rewrite !children_tag_records_closed, !parse_generic_event_list_closed.
  cbn [mbind outcome_bind]. intros [= <-]. done.
Qed.

Lemma Family_init_returns (_dict : gmap string addr) (line : Line) :
  Family_init _dict line
  = Ret {| family_line := line;
           _husband :=
             head (omap (λ e, _dict !! value e)
                        (filter (λ c, tag c = "HUSB") (children_lines line)));
           _wife :=
             head (omap (λ e, _dict !! value e)
                        (filter (λ c, tag c = "WIFE") (children_lines line)));
           _children :=
             omap (λ e, _dict !! value e)
                  (filter (λ c, tag c = "CHIL") (children_lines line));
           marriage_events := _parse_generic_event_list line "MARR";
           family_other_events :=
             foldl (λ other event_type,
                      other ++ _parse_generic_event_list line event_type)
                   [] family_event_types |}.
Proof.
  unfold Family_init. rewrite !children_tag_records_closed.
  cbn [mbind outcome_bind try_except]. unfold index.
  destruct (omap _ (filter (λ c, tag c = "HUSB") _)) as [|h hs];
    destruct (omap _ (filter (λ c, tag c = "WIFE") _)) as [|w ws];
    reflexivity.
Qed.

(** X1.  [Family._init] never raises.  The husband is the record that the
    registry holds for the first HUSB line whose value it knows, a HUSB line
    with an unknown value being passed over; there is no husband when the
    registry knows none of them.  The same holds of the wife, and the
    children are the records of all the CHIL lines with a known value, in the
    order of the file. *)
Theorem Family_init_resolves (_dict : gmap string addr) (line : Line) :
  ∃ f, Family_init _dict line = Ret f
       ∧ _husband f
         = head (omap (λ e, _dict !! value e)
                      (filter (λ c, tag c = "HUSB") (children_lines line)))
       ∧ _wife f
         = head (omap (λ e, _dict !! value e)
                      (filter (λ c, tag c = "WIFE") (children_lines line)))
       ∧ _children f
         = omap (λ e, _dict !! value e)
                (filter (λ c, tag c = "CHIL") (children_lines line)).
Proof. eexists. split; [apply Family_init_returns|]. done. Qed.

(** X2.  For a family initialised from its record, [married] is [True]
    exactly when the record has a MARR line; [marriage] then returns the
    event of the first MARR line, and raises [IndexError] exactly when
    [married] is [False]. *)
Theorem married_guards_marriage (_dict : gmap string addr) (line : Line)
    (g : Gedcom) (self : addr) :
  Family_init _dict line = Ret (families g self) →
  (Family_married g self = true ↔ ∃ c, c ∈ children_lines line ∧ tag c = "MARR")
  ∧ (Family_married g self = true →
     ∃ c rest, filter (λ c, tag c = "MARR") (children_lines line) = c :: rest
               ∧ Family_marriage g self = Ret (mkEvent c))
  ∧ (Family_married g self = false ↔ Family_marriage g self = Raise IndexError).
Proof.
  rewrite Family_init_returns. intros [= Hfam].
  unfold Family_married, Family_marriage. rewrite <- Hfam.
  cbn [family_line marriage_events].
  rewrite parse_generic_event_list_closed, children_tags_filter.
  destruct (filter (λ c, tag c = "MARR") (children_lines line))
    as [|c rest] eqn:Hfilter.
  - split; [|split].
    + split; [done|]. intros (c & Hc & Ht).
      assert (c ∈ filter (λ c, tag c = "MARR") (children_lines line)) as Hin
        by (by apply list_elem_of_filter).
      rewrite Hfilter in Hin. by apply not_elem_of_nil in Hin.
    + done.
    + done.
  - assert (c ∈ filter (λ c, tag c = "MARR") (children_lines line)) as Hin
      by (rewrite Hfilter; by left).
    apply list_elem_of_filter in Hin as [Ht Hin].
    split; [|split].
    + split; [eauto|]. intros _. apply bool_decide_eq_true. simpl. lia.
    + intros _. by exists c, rest.
    + split; [|done]. intros Hfalse.
      apply bool_decide_eq_false in Hfalse. simpl in Hfalse. lia.
Qed.

(** X3.  An individual initialised from its record is alive exactly when
    the record has no DEAT line, and [deceased] is the negation of
    [alive]. *)
Theorem alive_iff_no_death_line (_dict : gmap string addr) (line : Line)
    (g : Gedcom) (self : addr) :
  Individual_init _dict line = Ret (individuals g self) →
  ∃ a, Individual_alive g self = Ret a
       ∧ Individual_deceased g self = Ret (negb a)
       ∧ (a = true ↔ ∀ c, c ∈ children_lines line → tag c ≠ "DEAT").
Proof.
  intros (_ & _ & _ & _ & Hdeath)%Individual_init_fields.
  unfold Individual_deceased, Individual_alive, Individual_death.
  rewrite Hdeath.
  destruct (filter (λ c, tag c = "DEAT") (children_lines line))
    as [|c rest] eqn:Hfilter.
  - exists true. split; [done|]. split; [done|]. split; [|done].
    intros _ c Hc Ht.
    assert (c ∈ filter (λ c, tag c = "DEAT") (children_lines line)) as Hin
      by (by apply list_elem_of_filter).
    rewrite Hfilter in Hin. by apply not_elem_of_nil in Hin.
  - exists false. split; [done|]. split; [done|]. split; [done|].
    intros Hnone.
    assert (c ∈ filter (λ c, tag c = "DEAT") (children_lines line)) as Hin
      by (rewrite Hfilter; by left).
    apply list_elem_of_filter in Hin as [Ht Hin]. by destruct (Hnone c).
Qed.

(** X4.  For an individual initialised from its record, [families] is the
    list of the records that the registry holds for the FAMS lines, in the
    order of the file.  [family] returns [None] when there is none, the
    family when there is exactly one, and raises [MultipleReturnValues] when
    there are more. *)
Theorem family_of_spouse (_dict : gmap string addr) (line : Line)
    (g : Gedcom) (self : addr) :
  Individual_init _dict line = Ret (individuals g self) →
  Individual_families g self
  = omap (λ e, _dict !! value e)
         (filter (λ c, tag c = "FAMS") (children_lines line))
  ∧ (Individual_families g self = [] → Individual_family g self = Ret None)
  ∧ (∀ f, Individual_families g self = [f] →
          Individual_family g self = Ret (Some f))
  ∧ (1 < length (Individual_families g self) →
     Individual_family g self = Raise MultipleReturnValues).
Proof.
  intros (_ & _ & Hfams & _)%Individual_init_fields.
  split; [done|]. unfold Individual_family.
  split; [|split].
  - by intros ->.
  - by intros f ->.
  - intros Hlen. repeat case_decide; done || lia.
Qed.

(** X5.  [sex] never raises: it returns the value of the first SEX line of
    the record, and [None] when the record has no SEX line. *)
Theorem sex_first_line (g : Gedcom) (self : addr) :
  Individual_sex g self
  = Ret (value <$> head (filter (λ c, tag c = "SEX")
                                (children_lines
                                   (individual_line (individuals g self))))).
Proof.
  unfold Individual_sex, index. rewrite children_tags_filter.
  by destruct (filter _ _).
Qed.

(** ** Parents, children and siblings *)

Lemma elem_of_Family_parents (g : Gedcom) (f p : addr) :
  p ∈ Family_parents g f ↔ Family_husband g f = Some p ∨ Family_wife g f = Some p.
Proof.
  unfold Family_parents, Family_husband, Family_wife.
  destruct (_husband (families g f)) as [h|], (_wife (families g f)) as [w|];
    simpl; rewrite ?elem_of_cons, ?elem_of_nil; naive_solver.
Qed.

Lemma Family_parents_length (g : Gedcom) (f : addr) :
  length (Family_parents g f) ≤ 2.
Proof.
  unfold Family_parents.
  destruct (_husband (families g f)), (_wife (families g f)); simpl; lia.
Qed.

Lemma bind_singleton_id {A} (l : list A) : (l ≫= λ x, [x]) = l.
Proof. induction l as [|x l IH]; [done|]. by rewrite bind_cons, IH. Qed.

Lemma Individual_parents_bind (g : Gedcom) (self : addr) :
  Individual_parents g self
  = Individual_parent_families g self ≫= Family_parents g.
Proof.
  unfold Individual_parents.
  induction (Individual_parent_families g self) as [|f l IH]; [done|].
  cbn [map]. by rewrite !bind_cons, IH, bind_singleton_id.
Qed.

Lemma Family_parents_husband_wife (g : Gedcom) (f : addr) :
  Family_parents g f
  = option_list (Family_husband g f) ++ option_list (Family_wife g f).
Proof.
  unfold Family_parents, Family_husband, Family_wife.
  by destruct (_husband (families g f)), (_wife (families g f)).
Qed.

(** X6.  The parents of an individual are the husbands and wives of its
    parent families, the husband of a family before its wife and the
    families in their order: the list is the concatenation, over the parent
    families in their order, of the husband, if the family has one, followed
    by the wife, if it has one.  Hence its members are the husbands and
    wives of the parent families, and there are at most two for each parent
    family. *)
Theorem parents_of_parent_families (g : Gedcom) (self : addr) :
  Individual_parents g self
  = (Individual_parent_families g self
       ≫= (λ f, option_list (Family_husband g f)
                ++ option_list (Family_wife g f)))
  ∧ (∀ f, Family_parents g f
          = option_list (Family_husband g f) ++ option_list (Family_wife g f))
  ∧ (∀ p, p ∈ Individual_parents g self
          ↔ ∃ f, f ∈ Individual_parent_families g self
                 ∧ (Family_husband g f = Some p ∨ Family_wife g f = Some p))
  ∧ length (Individual_parents g self)
    ≤ 2 * length (Individual_parent_families g self).
Proof.
  split; [|split; [apply Family_parents_husband_wife|]].
  { rewrite Individual_parents_bind.
    induction (Individual_parent_families g self) as [|f l IH]; [done|].
    by rewrite !bind_cons, IH, Family_parents_husband_wife. }
  rewrite Individual_parents_bind. split.
  - intros p. rewrite list_elem_of_bind. split.
    + intros (f & Hp%elem_of_Family_parents & Hf). eauto.
    + intros (f & Hf & Hp%elem_of_Family_parents). eauto.
  - induction (Individual_parent_families g self) as [|f l IH]; [done|].
    rewrite bind_cons, length_app. simpl.
    pose proof (Family_parents_length g f). lia.
Qed.

Lemma nested_filter_loop {A B} (P : B → Prop) `{!∀ x, Decision (P x)}
    (h : A → list B) (l : list A) (acc : list B) :
  foldl (λ acc f,
           foldl (λ acc c, if decide (P c) then acc ++ [c] else acc)
                 acc (h f))
        acc l
  = acc ++ (l ≫= (λ f, filter P (h f))).
Proof.
  revert acc. induction l as [|f l IH]; intros acc; simpl.
  - by rewrite app_nil_r.
  - by rewrite IH, foldl_snoc_filter, <- app_assoc.
Qed.

(** X7.  The siblings of an individual are the children of its parent
    families other than the individual itself, in the order of the families
    and of their children; the individual is never its own sibling. *)
Theorem siblings_exclude_self (g : Gedcom) (self : addr) :
  Individual_siblings g self
  = (Individual_parent_families g self
       ≫= (λ f, filter (λ child, child ≠ self) (Family_children g f)))
  ∧ (self ∉ Individual_siblings g self)
  ∧ ∀ x, x ∈ Individual_siblings g self
         ↔ x ≠ self ∧ ∃ f, f ∈ Individual_parent_families g self
                           ∧ x ∈ Family_children g f.
Proof.
  assert (Individual_siblings g self
          = (Individual_parent_families g self
               ≫= (λ f, filter (λ child, child ≠ self)
                               (Family_children g f))))
    as Heq.
  { unfold Individual_siblings. by rewrite nested_filter_loop. }
  assert (∀ x, x ∈ Individual_siblings g self
               ↔ x ≠ self ∧ ∃ f, f ∈ Individual_parent_families g self
                                 ∧ x ∈ Family_children g f) as Hiff.
  { intros x. rewrite Heq, list_elem_of_bind. split.
    - intros (f & [Hne Hx]%list_elem_of_filter & Hf). eauto.
    - intros (Hne & f & Hf & Hx). exists f. split; [|done].
      by apply list_elem_of_filter. }
  split; [done|]. split; [|done].
  intros [Hne _]%Hiff. done.
Qed.

Lemma Individual_children_bind (g : Gedcom) (self : addr) :
  Individual_children g self
  = Individual_families g self ≫= Family_children g.
Proof.
  unfold Individual_children.
  assert (∀ l acc,
            foldl (λ retval f,
                     foldl (λ retval c, retval ++ [c]) retval
                           (Family_children g f)) acc l
            = acc ++ (l ≫= Family_children g)) as Hloop.
  { induction l as [|f l IH]; intros acc; simpl.
    - by rewrite app_nil_r.
    - rewrite IH, foldl_snoc_map, map_id. by rewrite <- app_assoc. }
  by rewrite Hloop.
Qed.

(** ** Siblings and common ancestors *)

Lemma NoDup_set_intersection (a b : list addr) :
  NoDup (set_intersection a b).
Proof. apply NoDup_elements. Qed.

Lemma set_intersection_swap (a b : list addr) :
  set_intersection a b ≡ₚ set_intersection b a.
Proof.
  apply NoDup_Permutation; [apply NoDup_set_intersection..|].
  intros x. rewrite !elem_of_set_intersection. tauto.
Qed.

Lemma set_intersection_swap_nil (a b : list addr) :
  set_intersection a b = [] ↔ set_intersection b a = [].
Proof.
  rewrite !set_intersection_nil. split; intros H x [? ?]; by apply (H x).
Qed.

Lemma is_sibling_mutual (g : Gedcom) (A B : addr) :
  Individual_is_sibling g A B = true
  ↔ Individual_mutual_parent_families g A B ≠ [].
Proof.
  unfold Individual_is_sibling.
  by destruct (Individual_mutual_parent_families g A B).
Qed.

Lemma is_sibling_shared_family (g : Gedcom) (A B : addr) :
  Individual_is_sibling g A B = true
  ↔ ∃ f, f ∈ Individual_parent_families g A
         ∧ f ∈ Individual_parent_families g B.
Proof.
  rewrite is_sibling_mutual. unfold Individual_mutual_parent_families.
  split.
  - intros Hne.
    destruct (set_intersection _ _) as [|f l] eqn:Hinter; [done|].
    exists f. apply elem_of_set_intersection. rewrite Hinter. by left.
  - intros (f & Hf) Hnil. apply elem_of_set_intersection in Hf.
    rewrite Hnil in Hf. by apply not_elem_of_nil in Hf.
Qed.

(** X8.  [mutual_parent_families] lists each family that is a parent family
    of both individuals once; called the other way round it lists the same
    families, possibly in another order.  [is_sibling] gives the same answer
    both ways, and an individual is its own sibling exactly when it has a
    parent family. *)
Theorem is_sibling_symmetric (g : Gedcom) (A B : addr) :
  NoDup (Individual_mutual_parent_families g A B)
  ∧ (∀ f, f ∈ Individual_mutual_parent_families g A B
          ↔ f ∈ Individual_parent_families g A
            ∧ f ∈ Individual_parent_families g B)
  ∧ Individual_mutual_parent_families g A B
    ≡ₚ Individual_mutual_parent_families g B A
  ∧ Individual_is_sibling g A B = Individual_is_sibling g B A
  ∧ (Individual_is_sibling g A A = true
     ↔ Individual_parent_families g A ≠ []).
Proof.
  split; [apply NoDup_set_intersection|].
  split; [intros f; apply elem_of_set_intersection|].
  split; [apply set_intersection_swap|]. split.
  - apply eq_true_iff_eq. rewrite !is_sibling_shared_family.
    split; intros (f & ? & ?); by exists f.
  - rewrite is_sibling_shared_family. split.
    + intros (f & Hf & _) Hnil. rewrite Hnil in Hf.
      by apply not_elem_of_nil in Hf.
    + destruct (Individual_parent_families g A) as [|f l]; [done|].
      intros _. exists f. split; by left.
Qed.

(** X9.  When two individuals share a parent family,
    [common_ancestor_families] returns, at any depth of recursion and
    whichever of the two it is called on, the families that are parent
    families of both, each once: the two lists hold the same families,
    possibly in different orders. *)
Theorem common_ancestor_families_of_siblings (g : Gedcom) (A B : addr)
    (fuel fuel' : nat) :
  Individual_is_sibling g A B = true →
  ∃ l l',
    Individual_common_ancestor_families fuel g A (Some B) = Ret l
    ∧ Individual_common_ancestor_families fuel' g B (Some A) = Ret l'
    ∧ l ≡ₚ l'
    ∧ NoDup l
    ∧ ∀ f, f ∈ l ↔ f ∈ Individual_parent_families g A
                   ∧ f ∈ Individual_parent_families g B.
Proof.
  intros Hsibling.
  assert (Individual_mutual_parent_families g A B ≠ []) as HAB
    by (by apply is_sibling_mutual).
  assert (Individual_mutual_parent_families g B A ≠ []) as HBA.
  { intros Hnil. apply HAB. by apply set_intersection_swap_nil. }
  exists (Individual_mutual_parent_families g A B),
         (Individual_mutual_parent_families g B A).
  unfold Individual_common_ancestor_families.
  rewrite !decide_True by done.
  split; [done|]. split; [done|].
  split; [apply set_intersection_swap|].
  split; [apply NoDup_set_intersection|].
  intros f. apply elem_of_set_intersection.
Qed.

(** X10.  An individual with no parent family has no common ancestor
    family with anyone: called on it, [common_ancestor_families] returns the
    empty list at any depth of recursion; called with it as the relative, it
    returns the empty list once the ancestor families of the caller have
    been listed. *)
Theorem common_ancestor_families_of_root (g : Gedcom) (A B : addr) :
  (Individual_parent_families g A = [] →
   ∀ fuel, Individual_common_ancestor_families fuel g A (Some B) = Ret [])
  ∧ (Individual_parent_families g B = [] →
     ∀ fuel mine,
       Individual_ancestor_families_with_distance fuel g A = Ret mine →
       Individual_common_ancestor_families fuel g A (Some B) = Ret []).
Proof.
  assert (∀ a b, a = [] ∨ b = [] → set_intersection a b = []) as Hempty.
  { intros a b Hab. apply set_intersection_nil. intros x [Ha Hb].
    destruct Hab as [-> | ->]; by eapply not_elem_of_nil. }
  unfold Individual_common_ancestor_families,
    Individual_mutual_parent_families.
  split.
  - intros HA fuel. rewrite Hempty by auto.
    rewrite decide_False by (by intros []).
    unfold Individual_ancestor_families_with_distance. by rewrite HA.
  - intros HB fuel mine Hmine. rewrite Hempty by auto.
    rewrite decide_False by (by intros []).
    rewrite Hmine. cbn [mbind outcome_bind].
    destruct (decide (mine = [])); [done|].
    unfold Individual_ancestor_families_with_distance at 1. by rewrite HB.
Qed.

Lemma dedup_loop (l acc : list addr) :
  NoDup acc →
  let r := foldl (λ common_ancestors ancestor,
                    if decide (ancestor ∈ common_ancestors)
                    then common_ancestors
                    else common_ancestors ++ [ancestor]) acc l in
  NoDup r ∧ ∀ x, x ∈ r ↔ x ∈ acc ∨ x ∈ l.
Proof.
  revert acc. induction l as [|y l IH]; intros acc Hacc; simpl.
  - split; [done|]. intros x. rewrite elem_of_nil. naive_solver.
  - destruct (decide (y ∈ acc)) as [Hy|Hy].
    + destruct (IH acc Hacc) as [Hnd Hiff]. split; [done|].
      intros x. rewrite Hiff, elem_of_cons. naive_solver.
    + destruct (IH (acc ++ [y])) as [Hnd Hiff].
      { apply NoDup_app. split; [done|]. split.
        - intros x Hx ->%list_elem_of_singleton. done.
        - apply NoDup_singleton. }
      split; [done|]. intros x.
      rewrite Hiff, elem_of_app, list_elem_of_singleton, elem_of_cons.
      naive_solver.
Qed.

Lemma dedup_families_loop (g : Gedcom) (fams acc : list addr) :
  NoDup acc →
  let r := foldl (λ common_ancestors family,
                    foldl (λ common_ancestors ancestor,
                             if decide (ancestor ∈ common_ancestors)
                             then common_ancestors
                             else common_ancestors ++ [ancestor])
                          common_ancestors (Family_parents g family))
                 acc fams in
  NoDup r ∧ ∀ x, x ∈ r ↔ x ∈ acc ∨ ∃ f, f ∈ fams ∧ x ∈ Family_parents g f.
Proof.
  revert acc. induction fams as [|f fams IH]; intros acc Hacc; simpl.
  - split; [done|]. intros x. split; [by left|].
    intros [?|(f & ?%not_elem_of_nil & _)]; done.
  - destruct (dedup_loop (Family_parents g f) acc Hacc) as [Hnd Hiff].
    destruct (IH _ Hnd) as [Hnd' Hiff']. split; [done|].
    intros x. rewrite Hiff', Hiff. split.
    + intros [[?|?]|(f' & ? & ?)]; [by left|right..].
      * exists f. split; [by left|done].
      * exists f'. split; [by right|done].
    + intros [?|(f' & [->|?]%elem_of_cons & ?)]; [by left; left| |].
      * left. by right.
      * right. eauto.
Qed.

Lemma common_ancestors_closed (fuel : nat) (g : Gedcom)
    (self relative : addr) (fams : list addr) :
  Individual_common_ancestor_families fuel g self (Some relative) = Ret fams →
  ∃ l, Individual_common_ancestors fuel g self (Some relative) = Ret l
       ∧ NoDup l
       ∧ ∀ x, x ∈ l ↔ ∃ f, f ∈ fams ∧ x ∈ Family_parents g f.
Proof.
  intros Hfams.
  unfold Individual_common_ancestors. rewrite Hfams.
  cbn [mbind outcome_bind].
  destruct (dedup_families_loop g fams [] (NoDup_nil_2)) as [Hnd Hiff].
  eexists. split; [done|]. split; [done|].
  intros x. rewrite Hiff, elem_of_nil. naive_solver.
Qed.

(** X11.  [common_ancestors] returns the husbands and wives of the families
    that [common_ancestor_families] returns, each of them once; without a
    relative it returns the empty list. *)
Theorem common_ancestors_are_family_parents (fuel : nat) (g : Gedcom)
    (self relative : addr) (fams : list addr) :
  Individual_common_ancestor_families fuel g self (Some relative) = Ret fams →
  Individual_common_ancestors fuel g self None = Ret []
  ∧ ∃ l, Individual_common_ancestors fuel g self (Some relative) = Ret l
         ∧ NoDup l
         ∧ ∀ x, x ∈ l ↔ ∃ f, f ∈ fams ∧ x ∈ Family_parents g f.
Proof.
  intros Hfams. split; [done|]. by apply common_ancestors_closed.
Qed.

(** X12.  Two individuals who share a parent family that has both a husband
    and a wife have two common ancestors: [common_ancestor] raises
    [MultipleReturnValues] on them, at any depth of recursion. *)
Theorem common_ancestor_of_full_siblings (fuel : nat) (g : Gedcom)
    (A B f h w : addr) :
  f ∈ Individual_parent_families g A →
  f ∈ Individual_parent_families g B →
  Family_husband g f = Some h → Family_wife g f = Some w → h ≠ w →
  Individual_common_ancestor fuel g A (Some B) = Raise MultipleReturnValues.
Proof.
  intros HA HB Hh Hw Hne.
  assert (f ∈ Individual_mutual_parent_families g A B) as Hmutual
    by (by apply elem_of_set_intersection).
  assert (Individual_common_ancestor_families fuel g A (Some B)
          = Ret (Individual_mutual_parent_families g A B)) as Hfams.
  { unfold Individual_common_ancestor_families. rewrite decide_True; [done|].
    intros Hnil. rewrite Hnil in Hmutual. by apply not_elem_of_nil in Hmutual. }
  destruct (common_ancestors_closed fuel g A B _ Hfams)
    as (l & Hl & Hnd & Hiff).
  unfold Individual_common_ancestor. rewrite Hl. cbn [mbind outcome_bind].
  assert (h ∈ l) as Hhl.
  { apply Hiff. exists f. split; [done|]. apply elem_of_Family_parents. auto. }
  assert (w ∈ l) as Hwl.
  { apply Hiff. exists f. split; [done|]. apply elem_of_Family_parents. auto. }
  assert (1 < length l) as Hlen.
  { destruct l as [|x [|y l]]; simpl; [| |lia].
    - by apply not_elem_of_nil in Hhl.
    - apply list_elem_of_singleton in Hhl, Hwl. congruence. }
  repeat case_decide; done || lia.
Qed.

(** ** Distances and generations *)

(** X13.  [distance_to_ancestor] returns the number of the first
    generation above [self] that holds the ancestor, generation 0 being
    [self] alone, as soon as the loop may run that many rounds and one
    more. *)
Theorem distance_is_first_generation (g : Gedcom) (self ancestor : addr)
    (k fuel : nat) :
  ancestor ∈ generation g self k →
  (∀ j, j < k → ancestor ∉ generation g self j) →
  k < fuel →
  Individual_distance_to_ancestor fuel g self ancestor = Ret (Some k).
Proof.
  intros Hin Hbefore Hfuel.
  unfold Individual_distance_to_ancestor.
  by rewrite (distance_loop_found g ancestor k [self] 0 fuel).
Qed.

Lemma distance_loop_endless (g : Gedcom) (ancestor : addr) (fuel : nat) :
  ∀ (l : list addr) (d : nat),
    (∀ k, levels (Individual_parents g) l k ≠ []) →
    (∀ k, ancestor ∉ levels (Individual_parents g) l k) →
    distance_to_ancestor_loop fuel g ancestor l d = OutOfFuel.
Proof.
  induction fuel as [|fuel IH]; intros l d Hfull Hnever.
  - destruct l as [|x l]; [by destruct (Hfull 0)|done].
  - destruct l as [|x l]; [by destruct (Hfull 0)|].
    rewrite distance_loop_unfold, decide_False by apply (Hnever 0).
    apply IH.
    + intros k. rewrite <- levels_succ_r. apply Hfull.
    + intros k. rewrite <- levels_succ_r. apply Hnever.
Qed.

(** X14.  When no generation above [self] is empty, as happens when an
    individual is recorded among its own ancestors, and none of them holds
    the ancestor sought, the loop of [distance_to_ancestor] ends after no
    number of rounds: it never returns [None]. *)
Theorem distance_to_ancestor_endless (g : Gedcom) (self ancestor : addr) :
  (∀ k, generation g self k ≠ []) →
  (∀ k, ancestor ∉ generation g self k) →
  ∀ fuel, Individual_distance_to_ancestor fuel g self ancestor = OutOfFuel.
Proof.
  intros Hfull Hnever fuel. by apply distance_loop_endless.
Qed.

Lemma ancestor_of_generation (g : Gedcom) (self candidate : addr) :
  ancestor_of g self candidate
  ↔ ∃ k, candidate ∈ generation g self (S k).
Proof.
  unfold generation. split.
  - induction 1 as [self candidate Hin|self p candidate Hp _ [k IH]].
    + exists 0. by rewrite levels_singleton_succ.
    + exists (S k). rewrite levels_singleton_succ.
      apply elem_of_levels. eauto.
  - intros [k Hin]. revert self Hin.
    induction k as [|k IH]; intros self Hin;
      rewrite levels_singleton_succ in Hin.
    + by apply ancestor_parent.
    + apply elem_of_levels in Hin as (p & Hp & Hin).
      apply (ancestor_step g self p); [done|]. by apply IH.
Qed.

Lemma first_generation (g : Gedcom) (self candidate : addr) (k : nat) :
  candidate ∈ generation g self k →
  ∃ k0, k0 ≤ k ∧ candidate ∈ generation g self k0
        ∧ ∀ j, j < k0 → candidate ∉ generation g self j.
Proof.
  intros Hin.
  destruct (dec_inh_nat_subset_has_unique_least_element
              (λ k, candidate ∈ generation g self k))
    as (k0 & [H0 Hleast] & _).
  - intros j. destruct (decide (candidate ∈ generation g self j)); auto.
  - eauto.
  - exists k0. split; [by apply Hleast|]. split; [done|].
    intros j Hj Hin'. apply Hleast in Hin'. lia.
Qed.

(** X15.  When the ancestry above [self] is finite, [is_ancestor] and
    [distance_to_ancestor] agree on every candidate other than [self]:
    [is_ancestor] returns [True] exactly when [distance_to_ancestor] returns
    a distance, and [False] exactly when it returns [None]. *)
Theorem is_ancestor_agrees_with_distance (g : Gedcom) (self candidate : addr)
    (n fuel : nat) :
  generation g self n = [] → n ≤ fuel → candidate ≠ self →
  (Individual_is_ancestor fuel g self candidate = Ret true
   ↔ ∃ k, Individual_distance_to_ancestor fuel g self candidate = Ret (Some k))
  ∧ (Individual_is_ancestor fuel g self candidate = Ret false
     ↔ Individual_distance_to_ancestor fuel g self candidate = Ret None).
Proof.
  intros Hnil Hfuel Hne.
  destruct (is_ancestor_decides g candidate n self fuel Hnil Hfuel)
    as (b & Hb & Hiff).
  rewrite Hb. destruct b.
  - destruct Hiff as [Hanc _].
    apply ancestor_of_generation in Hanc as [k Hin]; [|done].
    assert (S k < n) as Hlt.
    { destruct (decide (S k < n)) as [|Hge]; [done|]. exfalso.
      unfold generation in Hnil, Hin.
      rewrite (levels_empty_mono _ _ n (S k)) in Hin by (done || lia).
      by apply not_elem_of_nil in Hin. }
    destruct (first_generation g self candidate (S k) Hin)
      as (k0 & Hle & Hin0 & Hbefore).
    unfold Individual_distance_to_ancestor.
    rewrite (distance_loop_found g candidate k0 [self] 0 fuel)
      by (done || lia).
    split; split; eauto; done.
  - assert (Individual_distance_to_ancestor fuel g self candidate = Ret None)
      as Hdist.
    { unfold Individual_distance_to_ancestor.
      apply (distance_loop_exhausted g candidate n); [done| |done].
      intros [|j] Hj Hin.
      - apply list_elem_of_singleton in Hin. done.
      - assert (false = true); [|done].
        apply Hiff, ancestor_of_generation. eauto. }
    rewrite Hdist. split; split; try done. by intros [k [=]].
Qed.

Lemma Family_parent_families_bind (g : Gedcom) (f : addr) :
  Family_parent_families g f
  = Family_parents g f ≫= Individual_parent_families g.
Proof.
  unfold Family_parent_families, Family_parents, Family_husband, Family_wife.
  destruct (_husband (families g f)) as [h|], (_wife (families g f)) as [w|];
    cbn [app]; rewrite ?bind_cons, ?bind_nil;
    try destruct (Individual_parent_families g h);
    try destruct (Individual_parent_families g w);
    by rewrite ?app_nil_r.
Qed.

Lemma bind_bind {A B C} (f : A → list B) (h : B → list C) (l : list A) :
  (l ≫= f) ≫= h = l ≫= (λ x, f x ≫= h).
Proof.
  induction l as [|x l IH]; [done|]. by rewrite !bind_cons, bind_app, IH.
Qed.

Lemma list_bind_ext_eq {A B} (f h : A → list B) (l : list A) :
  (∀ x, f x = h x) → l ≫= f = l ≫= h.
Proof.
  intros Hext. induction l as [|x l IH]; [done|].
  by rewrite !bind_cons, Hext, IH.
Qed.

Lemma family_generation_of_generation (g : Gedcom) (self : addr) (k : nat) :
  family_generation g self k
  = generation g self k ≫= Individual_parent_families g.
Proof.
  unfold family_generation, families_above, generation.
  induction k as [|k IH].
  - simpl. by rewrite app_nil_r.
  - rewrite !levels_succ, IH, !bind_bind. apply list_bind_ext_eq.
    intros x. rewrite Individual_parents_bind, bind_bind.
    apply list_bind_ext_eq. intros f. apply Family_parent_families_bind.
Qed.

(** X16.  The ancestor families at distance [k] are the parent families of
    the individuals of generation [k], in their order.  Hence, when the
    generation [n] above an individual is empty,
    [ancestor_families_with_distance] returns as soon as the recursion may
    go [n] deep, and lists no family at distance [n] or more. *)
Theorem ancestor_families_follow_generations (g : Gedcom) (self : addr) :
  (∀ k, family_generation g self k
        = generation g self k ≫= Individual_parent_families g)
  ∧ ∀ n fuel, generation g self n = [] → n ≤ fuel →
      ∃ l, Individual_ancestor_families_with_distance fuel g self = Ret l
           ∧ ∀ f d, (f, d) ∈ l → d < n.
Proof.
  split; [apply family_generation_of_generation|].
  intros n fuel Hnil Hfuel.
  assert (family_generation g self n = []) as Hfam
    by (by rewrite family_generation_of_generation, Hnil).
  destruct (individual_ancestors_spec g self n fuel Hfam Hfuel)
    as (l & Hl & _ & Hiff).
  exists l. split; [done|]. intros f d Hin%Hiff.
  destruct (decide (d < n)) as [|Hge]; [done|].
  unfold family_generation, families_above in Hfam, Hin.
  rewrite (levels_empty_mono _ _ n d) in Hin by (done || lia).
  by apply not_elem_of_nil in Hin.
Qed.

(** X17.  For a family whose ancestor families run out after finitely many
    generations, [Family.ancestor_families_with_distance] returns a list
    sorted ascending by distance, which holds [(f, d)] exactly when [f] is
    reached from the family in [d + 1] steps: the families of its husband's
    and wife's parents have distance 0. *)
Theorem family_ancestor_families_spec (g : Gedcom) (self : addr)
    (n fuel : nat) :
  families_above g [self] n = [] → n ≤ fuel →
  ∃ l, Family_ancestor_families_with_distance fuel g self = Ret l
       ∧ StronglySorted le (l.*2)
       ∧ ∀ f d, (f, d) ∈ l ↔ f ∈ families_above g [self] (S d).
Proof.
  intros Hnil Hfuel.
  destruct (family_ancestors_spec g n self 0 fuel Hnil Hfuel)
    as (l & Hl & Hiff).
  unfold Family_ancestor_families_with_distance. rewrite Hl.
  cbn [mbind outcome_bind]. eexists. split; [done|].
  split; [apply sorted_StronglySorted|].
  intros f d. rewrite elem_of_sorted, Hiff. split.
  - by intros (j & -> & Hin).
  - intros Hin. by exists d.
Qed.

(** ** down_path *)

Lemma for_return_inv {A B} (l : list A) (body : A → outcome (option B))
    (after : outcome B) (v : B) :
  for_return l body after = Ret v →
  (∃ x, x ∈ l ∧ body x = Ret (Some v)) ∨ after = Ret v.
Proof.
  induction l as [|x l IH]; simpl; [by right|].
  destruct (body x) as [[v'|]| |] eqn:Hx; simpl; [| |done..].
  - intros [= ->]. left. exists x. split; [by left|done].
  - intros [(y & Hy & Hbody)|Hafter]%IH; [left|by right].
    exists y. split; [by right|done].
Qed.

Lemma for_return_total {A B} (l : list A) (body : A → outcome (option B))
    (after : outcome B) :
  (∀ x, x ∈ l → ∃ r, body x = Ret r) →
  (∃ x v, x ∈ l ∧ body x = Ret (Some v) ∧ for_return l body after = Ret v)
  ∨ (for_return l body after = after ∧ ∀ x, x ∈ l → body x = Ret None).
Proof.
  induction l as [|x l IH]; intros Hret; simpl.
  - right. split; [done|]. by intros x ?%not_elem_of_nil.
  - destruct (Hret x) as [[v|] Hx]; [by left| |]; rewrite Hx; simpl.
    + left. exists x, v. split; [by left|done].
    + destruct IH as [(y & v & Hy & Hbody & Hloop)|[Hafter Hnone]].
      * intros y Hy. apply Hret. by right.
      * left. exists y, v. split; [by right|done].
      * right. split; [done|].
        intros y [->|Hy]%elem_of_cons; [done|by apply Hnone].
Qed.

Lemma child_chain_cons (g : Gedcom) (x y : addr) (rest : list addr) :
  child_chain g (x :: y :: rest)
  ↔ y ∈ Individual_children g x ∧ child_chain g (y :: rest).
Proof. done. Qed.

Lemma down_path_chain (g : Gedcom) (descendant : addr) (fuel : nat) :
  ∀ (ancestor : addr) (distance : option nat) (path : list addr),
    Individual_down_path fuel g ancestor descendant distance
    = Ret (Some path) →
    head path = Some ancestor ∧ last path = Some descendant
    ∧ child_chain g path
    ∧ ∀ n, distance = Some n → length path ≤ n + 1.
Proof.
  induction fuel as [|fuel IH]; intros ancestor distance path; [done|].
  cbn [Individual_down_path].
  destruct (match distance with
            | Some d => bool_decide (d ≤ 0)
            | None => false
            end) eqn:Hlimit; [done|].
  destruct (decide (ancestor = descendant)) as [->|Hne].
  { intros [= <-]. split; [done|]. split; [done|]. split; [done|].
    intros n _. simpl. lia. }
  destruct (decide (Individual_children g ancestor = [])) as [Hnil|Hsome];
    [done|].
  destruct (decide (descendant ∈ Individual_children g ancestor)) as [Hin|Hnin].
  { intros [= <-]. split; [done|]. split; [done|].
    split; [by apply child_chain_cons|]. intros n ->. simpl.
    apply bool_decide_eq_false in Hlimit. lia. }
  intros [(c & Hc & Hbody)|Hafter]%for_return_inv; [|done].
  destruct (Individual_down_path fuel g c descendant _)
    as [[sub|]| |] eqn:Hsub; simpl in Hbody; [|done..].
  injection Hbody as <-.
  apply IH in Hsub as (Hhead & Hlast & Hchain & Hlen).
  destruct sub as [|c' sub]; [done|]. injection Hhead as ->.
  split; [done|]. split; [by rewrite last_cons, Hlast|].
  split; [by apply child_chain_cons|].
  intros n ->. apply bool_decide_eq_false in Hlimit.
  specialize (Hlen (n - 1) eq_refl). simpl in *. lia.
Qed.

Lemma down_path_within (g : Gedcom) (descendant : addr) (n : nat) :
  ∀ (ancestor : addr) (fuel : nat),
    n < fuel →
    ∃ r, Individual_down_path fuel g ancestor descendant (Some n) = Ret r
         ∧ ∀ path, head path = Some ancestor → last path = Some descendant →
                   child_chain g path → length path ≤ n + 1 → 0 < n →
                   is_Some r.
Proof.
  induction n as [|n IH]; intros ancestor fuel Hfuel.
  { destruct fuel as [|fuel]; [lia|]. exists None. split; [done|]. lia. }
  destruct fuel as [|fuel]; [lia|].
  cbn [Individual_down_path]. rewrite bool_decide_eq_false_2 by lia.
  destruct (decide (ancestor = descendant)) as [->|Hne]; [by eauto|].
  destruct (decide (Individual_children g ancestor = [])) as [Hnil|Hsome].
  { exists None. split; [done|].
    intros [|x [|y path]] Hhead Hlast Hchain _ _; [done| |].
    - simpl in *. congruence.
    - injection Hhead as ->. apply child_chain_cons in Hchain as [Hy _].
      rewrite Hnil in Hy. by apply not_elem_of_nil in Hy. }
  destruct (decide (descendant ∈ Individual_children g ancestor)) as [Hin|Hnin];
    [by eauto|].
  replace (S n - 1) with n by lia.
  destruct (for_return_total (Individual_children g ancestor)
              (λ c, path ← Individual_down_path fuel g c descendant (Some n);
                    Ret (match path with
                         | Some path => Some (Some (ancestor :: path))
                         | None => None
                         end))
              (Ret None)) as [(c & v & Hc & Hbody & Hloop)|[Hafter Hnone]].
  { intros c _. destruct (IH c fuel) as (r & Hr & _); [lia|].
    rewrite Hr. simpl. eauto. }
  - exists v. split; [done|]. intros path _ _ _ _ _.
    destruct (Individual_down_path fuel g c descendant _) as [[sub|]| |];
      simpl in Hbody; [|done..]. injection Hbody as <-. done.
  - rewrite Hafter. exists None. split; [done|].
    intros [|x [|y path]] Hhead Hlast Hchain Hlen _; [done| |].
    + simpl in *. congruence.
    + injection Hhead as ->. apply child_chain_cons in Hchain as [Hy Hchain].
      specialize (Hnone y Hy).
      destruct (IH y fuel) as (r & Hr & Hfind); [lia|].
      rewrite Hr in Hnone. simpl in Hnone.
      destruct n as [|n].
      { simpl in Hlen. destruct path; [|simpl in Hlen; lia].
        simpl in Hlast. by injection Hlast as ->. }
      destruct (Hfind (y :: path)) as [sub Hsub];
        [done|exact Hlast|done|simpl in *; lia|lia|].
      by rewrite Hsub in Hnone.
Qed.

(** X18.  A path returned by [down_path] starts at the ancestor, ends at
    the descendant, and each of its individuals after the first is a child
    of the one before it; under a distance limit [n] it has at most [n + 1]
    individuals. *)
Theorem down_path_is_child_chain (fuel : nat) (g : Gedcom)
    (ancestor descendant : addr) (distance : option nat) (path : list addr) :
  Individual_down_path fuel g ancestor descendant distance = Ret (Some path) →
  head path = Some ancestor ∧ last path = Some descendant
  ∧ child_chain g path
  ∧ ∀ n, distance = Some n → length path ≤ n + 1.
Proof. apply down_path_chain. Qed.

(** X19.  Under a distance limit [n], [down_path] returns whatever the data,
    cyclic or not, once the recursion may go [n + 1] deep; it returns a path
    exactly when [n] is positive and some chain of at most [n + 1]
    individuals, each a child of the one before, leads from the ancestor to
    the descendant. *)
Theorem down_path_with_limit (fuel : nat) (g : Gedcom)
    (ancestor descendant : addr) (n : nat) :
  n < fuel →
  ∃ r, Individual_down_path fuel g ancestor descendant (Some n) = Ret r
       ∧ (is_Some r
          ↔ 0 < n
            ∧ ∃ path, head path = Some ancestor ∧ last path = Some descendant
                      ∧ child_chain g path ∧ length path ≤ n + 1).
Proof.
  intros Hfuel.
  destruct (down_path_within g descendant n ancestor fuel Hfuel)
    as (r & Hr & Hfind).
  exists r. split; [done|]. split.
  - intros [path ->]. split.
    + destruct n as [|n]; [|lia].
      destruct fuel as [|fuel]; [lia|]. done.
    + apply down_path_chain in Hr as (Hhead & Hlast & Hchain & Hlen).
      exists path. split; [done|]. split; [done|]. split; [done|].
      by apply Hlen.
  - intros (Hn & path & Hhead & Hlast & Hchain & Hlen). by eapply Hfind.
Qed.

(** ** path_to_relative *)

(** X20.  A path returned by [path_to_relative] starts with [self] labelled
    [start], goes on with steps labelled [parent], then with steps labelled
    [child]; with [compact] one entry for the common ancestor, labelled
    [child], may stand between the two. *)
Theorem path_to_relative_shape (fuel : nat) (g : Gedcom)
    (self relative : addr) (compact : bool) (path : list path_entry) :
  Individual_path_to_relative fuel g self relative compact = Ret (Some path) →
  ∃ ups middle downs,
    path = PyTuple self start
           :: map (λ step, PyTuple step parent) ups
           ++ middle ++ map (λ step, PyTuple step child) downs
    ∧ (middle = []
       ∨ compact = true ∧ ∃ common_ancestor,
                            middle = [PyList common_ancestor child]).
Proof.
  unfold Individual_path_to_relative. intros Hpath.
  destruct (decide (relative = self)).
  { injection Hpath as <-. exists [], [], []. auto. }
  destruct (decide (relative ∈ Individual_parents g self)).
  { injection Hpath as <-. exists [relative], [], []. auto. }
  destruct (decide (relative ∈ Individual_children g self)).
  { injection Hpath as <-. exists [], [], [relative]. auto. }
  destruct (Individual_common_ancestors fuel g self (Some relative))
    as [cas| |]; simpl in Hpath; [|done..].
  destruct (decide (cas = [])); [done|].
  destruct (index cas 0) as [ca| |]; simpl in Hpath; [|done..].
  match type of Hpath with
  | mbind _ ?m = _ => destruct m as [my_path| |]; simpl in Hpath; [|done..]
  end.
  match type of Hpath with
  | mbind _ ?m = _ => destruct m as [his_path| |]; simpl in Hpath; [|done..]
  end.
  destruct (reverse_method my_path) as [my| |]; simpl in Hpath; [|done..].
  destruct (reverse_method his_path) as [his| |]; simpl in Hpath; [|done..].
  destruct (if decide (relative ∈ my) then _ else _) as [my1 his1].
  destruct (if decide (self ∈ his1) then _ else _) as [my2 his2].
  match type of Hpath with
  | mbind _ ?m = _ => destruct m as [full| |] eqn:Hfull; simpl in Hpath; [|done..]
  end.
  injection Hpath as <-.
  rewrite foldl_snoc_map. rewrite foldl_snoc_map in Hfull.
  exists (drop 1 my2). destruct compact.
  - destruct (up_path_last [PyTuple self start] (drop 1 my2))
      as (step & d & Hlast); [by eexists _, _|].
    rewrite foldl_snoc_map in Hlast.
    destruct (compact_path_cases g _ (reverse his2) ca step d Hlast)
      as [Hraise|Hret]; rewrite Hfull in *; [done|].
    injection Hret as ->.
    exists [PyList ca child], (drop 1 (reverse his2)).
    split; [simpl; by rewrite <- app_assoc|]. right. eauto.
  - injection Hfull as <-. exists [], (drop 1 (reverse his2)).
    split; [done|]. by left.
Qed.

Lemma common_ancestor_families_without_parents (fuel : nat) (g : Gedcom)
    (A B : addr) (mine : list (addr * nat)) :
  Individual_parent_families g B = [] →
  Individual_ancestor_families_with_distance fuel g A = Ret mine →
  Individual_common_ancestor_families fuel g A (Some B) = Ret [].
Proof.
  intros HB Hmine.
  unfold Individual_common_ancestor_families,
    Individual_mutual_parent_families.
  assert (set_intersection (Individual_parent_families g A)
                           (Individual_parent_families g B) = []) as ->.
  { apply set_intersection_nil. intros x [_ Hx]. rewrite HB in Hx.
    by apply not_elem_of_nil in Hx. }
  rewrite decide_False by (by intros []).
  rewrite Hmine. cbn [mbind outcome_bind].
  destruct (decide (mine = [])); [done|].
  unfold Individual_ancestor_families_with_distance at 1. by rewrite HB.
Qed.

(** X21.  A relative who has no parent family, and is neither [self] nor a
    parent nor a child of [self], is found by no path: once the ancestor
    families of [self] have been listed, [path_to_relative] returns [None].
    So it is for a grandparent whose own parents are not recorded. *)
Theorem path_to_relative_without_parents (fuel : nat) (g : Gedcom)
    (self relative : addr) (compact : bool) (mine : list (addr * nat)) :
  relative ≠ self →
  relative ∉ Individual_parents g self →
  relative ∉ Individual_children g self →
  Individual_parent_families g relative = [] →
  Individual_ancestor_families_with_distance fuel g self = Ret mine →
  Individual_path_to_relative fuel g self relative compact = Ret None.
Proof.
  intros Hself Hparent Hchild Hroot Hmine.
  unfold Individual_path_to_relative.
  rewrite !decide_False by done.
  unfold Individual_common_ancestors.
  by rewrite (common_ancestor_families_without_parents fuel g self relative mine).
Qed.

(** ** is_relative *)

Lemma common_ancestor_families_nonempty (fuel : nat) (g : Gedcom)
    (A B : addr) (mine his : list (addr * nat)) :
  Individual_ancestor_families_with_distance fuel g A = Ret mine →
  Individual_ancestor_families_with_distance fuel g B = Ret his →
  ∃ r, Individual_common_ancestor_families fuel g A (Some B) = Ret r
       ∧ (r ≠ [] ↔ Individual_mutual_parent_families g A B ≠ []
                   ∨ ∃ f, f ∈ mine.*1 ∧ f ∈ his.*1).
Proof.
  intros Hmine Hhis.
  destruct (decide (Individual_mutual_parent_families g A B = []))
    as [Hmutual|Hmutual].
  - destruct (common_ancestor_families_intersection fuel g A B mine his)
      as (r & Hr & Hnone & Hsome); [done..|].
    exists r. split; [done|]. split.
    + intros Hne. right.
      destruct (decide (set_intersection (mine.*1) (his.*1) = []))
        as [Hnil|Hnil].
      * destruct Hne. apply Hnone.
        by apply set_intersection_nil.
      * destruct (set_intersection (mine.*1) (his.*1)) as [|f l] eqn:Hinter;
          [done|].
        exists f. apply elem_of_set_intersection. rewrite Hinter. by left.
    + intros [?|(f & Hf & Hf')]; [done|].
      destruct (Hsome f Hf Hf') as (m & (f1 & Hf1 & Hf1') & _ & Hiff).
      assert (f1 ∈ r) as Hin by (by apply Hiff).
      intros ->. by apply not_elem_of_nil in Hin.
  - exists (Individual_mutual_parent_families g A B).
    unfold Individual_common_ancestor_families.
    rewrite decide_True by done. split; [done|]. split; auto.
Qed.

(** X22.  When the ancestry above both individuals is finite, [is_relative]
    returns, and returns the same answer whichever of the two it is called
    on. *)
Theorem is_relative_symmetric (g : Gedcom) (A B : addr) (n fuel : nat) :
  generation g A n = [] → generation g B n = [] → n ≤ fuel →
  ∃ b, Individual_is_relative fuel g A B = Ret b
       ∧ Individual_is_relative fuel g B A = Ret b.
Proof.
  intros HA HB Hfuel.
  destruct (is_ancestor_decides g B n A fuel HA Hfuel) as (ab & Hab & _).
  destruct (is_ancestor_decides g A n B fuel HB Hfuel) as (ba & Hba & _).
  destruct (individual_ancestors_spec g A n fuel) as (mine & Hmine & _);
    [by rewrite family_generation_of_generation, HA|done|].
  destruct (individual_ancestors_spec g B n fuel) as (his & Hhis & _);
    [by rewrite family_generation_of_generation, HB|done|].
  destruct (common_ancestor_families_nonempty fuel g A B mine his)
    as (r & Hr & Hiff); [done..|].
  destruct (common_ancestor_families_nonempty fuel g B A his mine)
    as (r' & Hr' & Hiff'); [done..|].
  assert (r ≠ [] ↔ r' ≠ []) as Hsame.
  { rewrite Hiff, Hiff'.
    assert (Individual_mutual_parent_families g A B ≠ []
            ↔ Individual_mutual_parent_families g B A ≠ []) as ->.
    { unfold Individual_mutual_parent_families.
      by rewrite (set_intersection_swap_nil
                    (Individual_parent_families g A)). }
    split; (intros [?|(f & ? & ?)]; [by left|right; eauto]). }
  unfold Individual_is_relative. rewrite Hab, Hba, Hr, Hr'.
  cbn [mbind outcome_bind].
  destruct ab, ba; try (by eexists); cbn [mbind outcome_bind].
  destruct r, r'; try (by eexists).
  - by destruct (proj2 Hsame).
  - by destruct (proj1 Hsame).
Qed.

(** ** gedcom *)

Lemma Line_nested_ind (P : Line → Prop) :
  (∀ lv x t v children, Forall P children → P (mkLine lv x t v children)) →
  ∀ line, P line.
Proof.
  intros Hnode. fix IH 1. intros [lv x t v children]. apply Hnode.
  induction children as [|c children IHc]; constructor; [apply IH|exact IHc].
Qed.

Lemma string_app_assoc (a b c : string) : (a +:+ b) +:+ c = a +:+ b +:+ c.
Proof.
  induction a as [|x a IH]; [done|].
  change (String x ((a +:+ b) +:+ c) = String x (a +:+ b +:+ c)).
  by rewrite IH.
Qed.

Lemma join_lines_cons (piece : string) (rest : list string) :
  rest ≠ [] →
  join_lines (piece :: rest) = piece +:+ newline +:+ join_lines rest.
Proof. by destruct rest. Qed.

Lemma join_lines_app (ps qs : list string) :
  ps ≠ [] → qs ≠ [] →
  join_lines (ps ++ qs) = join_lines ps +:+ newline +:+ join_lines qs.
Proof.
  intros Hps Hqs. induction ps as [|p ps IH]; [done|].
  destruct ps as [|p' ps].
  - simpl app. by rewrite join_lines_cons.
  - change ((p :: p' :: ps) ++ qs) with (p :: ((p' :: ps) ++ qs)).
    rewrite !join_lines_cons, IH by done.
    by rewrite !string_app_assoc.
Qed.

Lemma preorder_head (line : Line) :
  ∃ rest, preorder line = line :: rest.
Proof. destruct line. simpl. eauto. Qed.

Lemma gedcom_loop (children : list Line) (ps : list string) :
  Forall (λ e, Line_gedcom e = join_lines (map Line_str (preorder e)))
         children →
  ps ≠ [] →
  foldl (λ result e, result +:+ newline +:+ Line_gedcom e)
        (join_lines ps) children
  = join_lines (ps ++ map Line_str (children ≫= preorder)).
Proof.
  intros Hall. revert ps.
  induction Hall as [|e children He _ IH]; intros ps Hps; simpl.
  - by rewrite app_nil_r.
  - rewrite He. destruct (preorder_head e) as [rest Hrest].
    rewrite <- join_lines_app by (done || by rewrite Hrest).
    rewrite IH by (by destruct ps).
    by rewrite map_app, app_assoc.
Qed.

(** X23.  [gedcom] writes the line and all its sub-lines, each before its
    own sub-lines and in the order of the file: its result is the texts of
    these lines, as [__str__] gives them, joined by line feeds. *)
Theorem gedcom_is_preorder (line : Line) :
  Line_gedcom line = join_lines (map Line_str (preorder line)).
Proof.
  induction line as [lv x t v children Hall] using Line_nested_ind.
  cbn [Line_gedcom preorder map].
  exact (gedcom_loop children [Line_str (mkLine lv x t v children)] Hall
           ltac:(done)).
Qed.

(** ** Names *)

Lemma split_on_without_separator (sep : ascii) (s : string) :
  sep ∉ Stdlib.Strings.String.list_ascii_of_string s → split_on sep s = [s].
Proof.
  induction s as [|c s IH]; [done|]. simpl. intros Hnot.
  rewrite decide_False.
  - rewrite IH; [done|]. intros Hin. apply Hnot. by right.
  - intros ->. apply Hnot. by left.
Qed.

Lemma split_on_nonempty (sep : ascii) (s : string) : split_on sep s ≠ [].
Proof.
  induction s as [|c s IH]; [done|]. simpl. case_decide; [done|].
  by destruct (split_on sep s).
Qed.

Lemma for_each_app {A S} (l1 l2 : list A) (s : S) (body : S → A → outcome S) :
  for_each (l1 ++ l2) s body = s' ← for_each l1 s body; for_each l2 s' body.
Proof.
  revert s. induction l1 as [|x l1 IH]; intros s; simpl; [done|].
  destruct (body s x); simpl; auto.
Qed.

Section name_properties.
Variable strip : string → string.

Lemma name_loop_returns (l : list Line) (acc : string * option string) :
  ∃ r, for_each l acc (name_step strip) = Ret r.
Proof.
  revert acc. induction l as [|e l IH]; intros [first last]; simpl; [eauto|].
  case_decide; [|apply IH]. case_decide; [|apply IH].
  unfold index.
  destruct (split_on "/" (value e)) as [|n0 [|n1 pieces]] eqn:Hsplit.
  - by apply split_on_nonempty in Hsplit.
  - simpl. apply IH.
  - simpl. apply IH.
Qed.

Lemma name_loop_other_lines (l : list Line) (acc : string * option string) :
  (∀ c, c ∈ l → tag c ≠ "NAME") → for_each l acc (name_step strip) = Ret acc.
Proof.
  revert acc. induction l as [|e l IH]; intros [first last] Hother; [done|].
  simpl. rewrite decide_False by (apply Hother; by left). simpl.
  apply IH. intros c Hc. apply Hother. by right.
Qed.

Lemma Individual_name_loop (g : Gedcom) (self : addr) :
  Individual_name strip g self
  = for_each (children_lines (individual_line (individuals g self)))
             (EmptyString, Some EmptyString) (name_step strip).
Proof. reflexivity. Qed.

(** X24.  [name] reads the last NAME line of the record.  With no NAME
    line it returns a pair of empty strings.  When the last NAME line has a
    value without [/], the first name is that value stripped and the last
    name is [None], so that [surname] returns [None]. *)
Theorem name_of_last_line (g : Gedcom) (self : addr) :
  ((∀ c, c ∈ children_lines (individual_line (individuals g self)) →
         tag c ≠ "NAME") →
   Individual_name strip g self = Ret (EmptyString, Some EmptyString))
  ∧ (∀ before e after,
       children_lines (individual_line (individuals g self))
       = before ++ e :: after →
       tag e = "NAME" → value e ≠ "" →
       "/"%char ∉ Stdlib.Strings.String.list_ascii_of_string (value e) →
       (∀ c, c ∈ after → tag c ≠ "NAME") →
       Individual_name strip g self = Ret (strip (value e), None)
       ∧ Individual_given_name strip g self = Ret (Some (strip (value e)))
       ∧ Individual_surname strip g self = Ret None).
Proof.
  split.
  - intros Hnone. rewrite Individual_name_loop.
    by apply name_loop_other_lines.
  - intros before e after Hlines Htag Hvalue Hslash Hafter.
    assert (Individual_name strip g self = Ret (strip (value e), None))
      as Hname.
    { rewrite Individual_name_loop, Hlines, for_each_app.
      destruct (name_loop_returns before (EmptyString, Some EmptyString))
        as ([first last] & ->).
      cbn [mbind outcome_bind for_each name_step].
      rewrite decide_True, decide_True by done.
      rewrite split_on_without_separator by done.
      cbn [index lookup list_lookup mbind outcome_bind length].
      rewrite decide_False by lia. cbn [mbind outcome_bind].
      by apply name_loop_other_lines. }
    split; [done|].
    unfold Individual_given_name, Individual_surname. by rewrite Hname.
Qed.

(** X25.  [fathers_name] returns the given name of the father when the
    parent families hold exactly one husband; in every other case, with no
    father recorded as well as with several, it raises [AttributeError]. *)
Theorem fathers_name_needs_one_father (g : Gedcom) (self : addr) :
  (∀ f, father_candidates g self = [f] →
        Individual_fathers_name strip g self
        = Individual_given_name strip g f)
  ∧ (length (father_candidates g self) ≠ 1 →
     Individual_fathers_name strip g self = Raise AttributeError).
Proof.
  unfold Individual_fathers_name. rewrite father_closed. split.
  - by intros f ->.
  - intros Hlen. by destruct (father_candidates g self) as [|f [|f' l]].
Qed.
End name_properties.

(** ** Instances of the further properties *)

Lemma married_guards_marriage_witness :
  Family_married sample_records 0 = true
  ∧ ∃ c rest, filter (λ c, tag c = "MARR") (children_lines married_line)
              = c :: rest
              ∧ Family_marriage sample_records 0 = Ret (mkEvent c).
Proof.
  destruct (married_guards_marriage sample_dict married_line sample_records 0)
    as (Hmarried & Hevent & _).
  - by vm_compute.
  - assert (Family_married sample_records 0 = true) as Htrue.
    { apply Hmarried.
      exists (mkLine 1 "" "MARR" "" [ mkLine 2 "" "DATE" "1 JAN 1900" [] ]).
      split; [|reflexivity]. right. right. by left. }
    split; [exact Htrue|]. by apply Hevent.
Defined.

Lemma alive_iff_no_death_line_witness :
  ∃ a, Individual_alive sample_records 0 = Ret a
       ∧ Individual_deceased sample_records 0 = Ret (negb a)
       ∧ (a = true ↔ ∀ c, c ∈ children_lines widow_line → tag c ≠ "DEAT").
Proof.
  apply (alive_iff_no_death_line sample_dict widow_line sample_records 0).
  by vm_compute.
Defined.

Lemma family_of_spouse_witness :
  Individual_families sample_records 0 = [1; 2]
  ∧ Individual_family sample_records 0 = Raise MultipleReturnValues
  ∧ Individual_family adopted_gedcom 0 = Ret None.
Proof.
  destruct (family_of_spouse sample_dict widow_line sample_records 0)
    as (Hall & _ & _ & Hmany); [by vm_compute|].
  destruct (family_of_spouse adopted_dict adopted_line adopted_gedcom 0)
    as (_ & Hnone & _ & _); [by vm_compute|].
  split; [|split].
  - rewrite Hall. by vm_compute.
  - apply Hmany. vm_compute. lia.
  - apply Hnone. reflexivity.
Defined.

Lemma common_ancestor_families_of_siblings_witness :
  ∃ l l',
    Individual_common_ancestor_families 0 adopted_by_grandparents 2 (Some 3)
    = Ret l
    ∧ Individual_common_ancestor_families 5 adopted_by_grandparents 3 (Some 2)
      = Ret l'
    ∧ l ≡ₚ l'
    ∧ NoDup l
    ∧ ∀ f, f ∈ l ↔ f ∈ Individual_parent_families adopted_by_grandparents 2
                   ∧ f ∈ Individual_parent_families adopted_by_grandparents 3.
Proof.
  apply (common_ancestor_families_of_siblings adopted_by_grandparents 2 3 0 5).
  by vm_compute.
Defined.

Lemma common_ancestor_families_of_root_witness :
  Individual_common_ancestor_families 0 three_generations 0 (Some 2) = Ret []
  ∧ Individual_common_ancestor_families 2 three_generations 2 (Some 0)
    = Ret [].
Proof.
  split.
  - destruct (common_ancestor_families_of_root three_generations 0 2)
      as [Hroot _].
    apply Hroot. reflexivity.
  - destruct (common_ancestor_families_of_root three_generations 2 0)
      as [_ Hroot].
    apply (Hroot eq_refl 2 [(1, 0); (0, 1)]). by vm_compute.
Defined.

Lemma common_ancestors_are_family_parents_witness :
  Individual_common_ancestors 0 full_siblings 2 None = Ret []
  ∧ ∃ l, Individual_common_ancestors 0 full_siblings 2 (Some 3) = Ret l
         ∧ NoDup l
         ∧ ∀ x, x ∈ l ↔ ∃ f, f ∈ [0] ∧ x ∈ Family_parents full_siblings f.
Proof.
  apply (common_ancestors_are_family_parents 0 full_siblings 2 3 [0]).
  by vm_compute.
Defined.

Lemma common_ancestor_of_full_siblings_witness :
  Individual_common_ancestor 0 full_siblings 2 (Some 3)
  = Raise MultipleReturnValues.
Proof.
  apply (common_ancestor_of_full_siblings 0 full_siblings 2 3 0 0 1).
  - by apply (bool_decide_unpack _); vm_compute.
  - by apply (bool_decide_unpack _); vm_compute.
  - reflexivity.
  - reflexivity.
  - lia.
Defined.

Lemma distance_is_first_generation_witness :
  Individual_distance_to_ancestor 3 three_generations 2 0 = Ret (Some 2).
Proof.
  apply (distance_is_first_generation three_generations 2 0 2 3).
  - by apply (bool_decide_unpack _); vm_compute.
  - intros [|[|j]] Hj; [| |lia]; by apply (bool_decide_unpack _); vm_compute.
  - lia.
Defined.

Lemma distance_to_ancestor_endless_witness :
  Individual_distance_to_ancestor 1000 own_ancestor 1 0 = OutOfFuel.
Proof.
  assert (∀ k, generation own_ancestor 1 k = [1]) as Hgen.
  { unfold generation. induction k as [|k IH]; [done|].
    by rewrite levels_succ, IH. }
  refine (distance_to_ancestor_endless own_ancestor 1 0 _ _ 1000).
  - intros k. by rewrite Hgen.
  - intros k. rewrite Hgen. by intros ?%list_elem_of_singleton.
Defined.

Lemma is_ancestor_agrees_with_distance_witness :
  (Individual_is_ancestor 3 three_generations 2 0 = Ret true
   ↔ ∃ k, Individual_distance_to_ancestor 3 three_generations 2 0
          = Ret (Some k))
  ∧ (Individual_is_ancestor 3 three_generations 2 0 = Ret false
     ↔ Individual_distance_to_ancestor 3 three_generations 2 0 = Ret None).
Proof.
  apply (is_ancestor_agrees_with_distance three_generations 2 0 3 3).
  - reflexivity.
  - lia.
  - lia.
Defined.

Lemma ancestor_families_follow_generations_witness :
  ∃ l, Individual_ancestor_families_with_distance 3 three_generations 2 = Ret l
       ∧ ∀ f d, (f, d) ∈ l → d < 3.
Proof.
  destruct (ancestor_families_follow_generations three_generations 2)
    as [_ Hreturns].
  apply (Hreturns 3 3); [reflexivity|lia].
Defined.

Lemma family_ancestor_families_spec_witness :
  ∃ l, Family_ancestor_families_with_distance 3 adopted_by_grandparents 2
       = Ret l
       ∧ StronglySorted le (l.*2)
       ∧ ∀ f d, (f, d) ∈ l
                ↔ f ∈ families_above adopted_by_grandparents [2] (S d).
Proof.
  apply (family_ancestor_families_spec adopted_by_grandparents 2 3 3).
  - reflexivity.
  - lia.
Defined.

Lemma down_path_is_child_chain_witness :
  head [1; 3; 4] = Some 1 ∧ last [1; 3; 4] = Some 4
  ∧ child_chain adopted_by_grandparents [1; 3; 4]
  ∧ ∀ n, Some 2 = Some n → length [1; 3; 4] ≤ n + 1.
Proof.
  apply (down_path_is_child_chain 3 adopted_by_grandparents 1 4 (Some 2)).
  by vm_compute.
Defined.

Lemma down_path_with_limit_witness :
  ∃ r, Individual_down_path 3 adopted_by_grandparents 1 4 (Some 2) = Ret r
       ∧ (is_Some r
          ↔ 0 < 2
            ∧ ∃ path, head path = Some 1 ∧ last path = Some 4
                      ∧ child_chain adopted_by_grandparents path
                      ∧ length path ≤ 2 + 1).
Proof.
  apply (down_path_with_limit 3 adopted_by_grandparents 1 4 2). lia.
Defined.

Lemma path_to_relative_shape_witness :
  ∃ ups middle downs,
    [PyTuple 2 start; PyTuple 1 parent; PyTuple 3 child; PyTuple 4 child]
    = PyTuple 2 start
      :: map (λ step, PyTuple step parent) ups
      ++ middle ++ map (λ step, PyTuple step child) downs
    ∧ (middle = []
       ∨ false = true ∧ ∃ common_ancestor,
                          middle = [PyList common_ancestor child]).
Proof.
  apply (path_to_relative_shape 3 adopted_by_grandparents 2 4 false).
  by vm_compute.
Defined.

Lemma path_to_relative_without_parents_witness :
  Individual_path_to_relative 2 three_generations 2 0 false = Ret None.
Proof.
  apply (path_to_relative_without_parents 2 three_generations 2 0 false
           [(1, 0); (0, 1)]).
  - lia.
  - by apply (bool_decide_unpack _); vm_compute.
  - by apply (bool_decide_unpack _); vm_compute.
  - reflexivity.
  - by vm_compute.
Defined.

Lemma is_relative_symmetric_witness :
  ∃ b, Individual_is_relative 3 three_generations 2 0 = Ret b
       ∧ Individual_is_relative 3 three_generations 0 2 = Ret b.
Proof.
  apply (is_relative_symmetric three_generations 2 0 3 3).
  - reflexivity.
  - reflexivity.
  - lia.
Defined.

Lemma name_of_last_line_witness :
  Individual_name (λ s, s) three_generations 0
  = Ret (EmptyString, Some EmptyString)
  ∧ Individual_name (λ s, s) sample_records 0 = Ret ("Cher", None)
  ∧ Individual_given_name (λ s, s) sample_records 0 = Ret (Some "Cher")
  ∧ Individual_surname (λ s, s) sample_records 0 = Ret None.
Proof.
  destruct (name_of_last_line (λ s, s) three_generations 0) as [Hnone _].
  destruct (name_of_last_line (λ s, s) sample_records 0) as [_ Hlast].
  split.
  - apply Hnone. by intros c ?%not_elem_of_nil.
  - apply (Hlast [mkLine 1 "" "NAME" "Ann /Doe/" []]
                 (mkLine 1 "" "NAME" "Cher" [])
                 [ mkLine 1 "" "SEX" "F" [];
                   mkLine 1 "" "DEAT" "" [ mkLine 2 "" "DATE" "1 JAN 1900" [] ];
                   mkLine 1 "" "FAMS" "@F1@" [];
                   mkLine 1 "" "FAMS" "@F2@" [] ]).
    + by vm_compute.
    + reflexivity.
    + done.
    + by apply (bool_decide_unpack _); vm_compute.
    + intros c Hc.
      repeat (apply elem_of_cons in Hc as [->|Hc]; [done|]).
      by apply not_elem_of_nil in Hc.
Defined.

Lemma fathers_name_needs_one_father_witness :
  Individual_fathers_name (λ s, s) three_generations 2
  = Individual_given_name (λ s, s) three_generations 1
  ∧ Individual_fathers_name (λ s, s) three_generations 0
    = Raise AttributeError
  ∧ Individual_fathers_name (λ s, s) two_parent_families 0
    = Raise AttributeError.
Proof.
  destruct (fathers_name_needs_one_father (λ s, s) three_generations 2)
    as [Hone _].
  destruct (fathers_name_needs_one_father (λ s, s) three_generations 0)
    as [_ Hnone].
  destruct (fathers_name_needs_one_father (λ s, s) two_parent_families 0)
    as [_ Hmany].
  split; [|split].
  - apply (Hone 1). reflexivity.
  - apply Hnone. vm_compute. lia.
  - apply Hmany. vm_compute. lia.
Defined.
